(** * event: the manager of package [event] (manager.go)

    A shallow embedding of the event manager: listener registration ([On]),
    dispatch ([Fire], [MustFire], [FireEvent]), the catalog of pre-defined
    events and the cleanup operations, with the properties of the
    dispatch chain, of the registry and of the scratch-event pool.

    Go values are modelled as follows.
    - [string] is Go's byte string (one [ascii] per byte).
    - [int] is a 64-bit signed integer: [Z] with the wrap-around of [++]
      written out ([wrap64]).
    - A map is a [gmap]; reading a missing key gives the zero value.
    - Events are objects behind pointers: they live in a heap and the
      manager holds locations, so that a catalog event is shared between
      the caller, the catalog and every listener.
    - A panic is an outcome of its own, distinct from a returned [error].
    - A listener acts on the event it is handed and on nothing else: it
      may read and change the name, the payload and the abort flag, and it
      returns an error or nil. Listeners that panic, that keep the pointer
      or that call back into the manager are outside the model.
    - Every call of a listener is recorded, so that "is called" and "is
      called before" are statements about that record. *)

From Stdlib Require Import ZArith Ascii String List Lia.
From stdpp Require Import base option list gmap strings.

Local Open Scope string_scope.
Local Open Scope list_scope.
Local Open Scope Z_scope.

(** ** Strings: the parts of [strings] and [regexp] that manager.go uses *)

Module Str.

Definition byte (c : ascii) : N := N_of_ascii c.

Definition between (lo hi : N) (c : ascii) : bool :=
  ((lo <=? byte c) && (byte c <=? hi))%N.

Definition is_letter (c : ascii) : bool :=
  between 65 90 c || between 97 122 c.

Definition is_digit (c : ascii) : bool := between 48 57 c.

(** [\w] of RE2: ASCII letters, digits and the underscore. *)
Definition is_word (c : ascii) : bool :=
  is_letter c || is_digit c || (byte c =? 95)%N.

(** The class [[\w-.*]]: after [\w] the hyphen is a literal, so the class
    is the word characters, [-], [.] and [*]. *)
Definition in_class (c : ascii) : bool :=
  is_word c || (byte c =? 45)%N || (byte c =? 46)%N || (byte c =? 42)%N.

Fixpoint all_in_class (s : string) : bool :=
  match s with
  | EmptyString => true
  | String c r => in_class c && all_in_class r
  end.

(** [goodNameReg.MatchString]: the anchored pattern [^[a-zA-Z][\w-.*]*$].
    Without the multi-line flag [$] is the end of the text. A byte above
    127 belongs to no rune of the class, so the match is byte-wise. *)
Definition goodNameReg_MatchString (s : string) : bool :=
  match s with
  | EmptyString => false
  | String c r => is_letter c && all_in_class r
  end.

(** White space as [unicode.IsSpace] defines it, by UTF-8 encoding:
    one byte for TAB, LF, VT, FF, CR and SPACE; two bytes for U+0085 and
    U+00A0; three bytes for U+1680, U+2000..U+200A, U+2028, U+2029,
    U+202F, U+205F and U+3000. *)
Definition space1 (a : ascii) : bool :=
  between 9 13 a || (byte a =? 32)%N.

Definition space2 (a b : ascii) : bool :=
  (byte a =? 194)%N && ((byte b =? 133)%N || (byte b =? 160)%N).

Definition space3 (a b c : ascii) : bool :=
  ((byte a =? 225)%N && (byte b =? 154)%N && (byte c =? 128)%N)
  || ((byte a =? 226)%N && (byte b =? 128)%N
      && (between 128 138 c || between 168 169 c || (byte c =? 175)%N))
  || ((byte a =? 226)%N && (byte b =? 129)%N && (byte c =? 159)%N)
  || ((byte a =? 227)%N && (byte b =? 128)%N && (byte c =? 128)%N).

(** [strings.TrimLeftFunc(s, unicode.IsSpace)]: runes are decoded from the
    front; an invalid sequence decodes to U+FFFD, which is no space. *)
Fixpoint TrimLeftSpace (s : string) : string :=
  match s with
  | EmptyString => s
  | String a r1 =>
      if space1 a then TrimLeftSpace r1
      else match r1 with
           | EmptyString => s
           | String b r2 =>
               if space2 a b then TrimLeftSpace r2
               else match r2 with
                    | EmptyString => s
                    | String c r3 =>
                        if space3 a b c then TrimLeftSpace r3 else s
                    end
           end
  end.

(** The same scan over the reversed bytes, for
    [strings.TrimRightFunc(s, unicode.IsSpace)]: the last rune is a space
    exactly when the string ends with the encoding of one. *)
Fixpoint trim_left_rev (s : string) : string :=
  match s with
  | EmptyString => s
  | String a r1 =>
      if space1 a then trim_left_rev r1
      else match r1 with
           | EmptyString => s
           | String b r2 =>
               if space2 b a then trim_left_rev r2
               else match r2 with
                    | EmptyString => s
                    | String c r3 =>
                        if space3 c b a then trim_left_rev r3 else s
                    end
           end
  end.

Definition TrimRightSpace (s : string) : string :=
  String.rev (trim_left_rev (String.rev s)).

(** [strings.TrimSpace]. *)
Definition TrimSpace (s : string) : string :=
  TrimRightSpace (TrimLeftSpace s).

(** [strings.LastIndexByte]: the index of the last [c] in [s], or -1. *)
Fixpoint LastIndexByte (s : string) (c : ascii) : Z :=
  match s with
  | EmptyString => -1
  | String a r =>
      let i := LastIndexByte r c in
      if 0 <=? i then i + 1
      else if Ascii.eqb a c then 0 else -1
  end.

(** [len(s)]. *)
Definition len (s : string) : Z := Z.of_nat (String.length s).

(** The slice [s[:pos]], for [0 <= pos <= len(s)]. *)
Definition slice_to (s : string) (pos : Z) : string :=
  substring 0 (Z.to_nat pos) s.

End Str.

(** ** Data model *)

(** A payload value ([interface{}]). *)
Inductive Value : Type :=
  | VNil
  | VBool (b : bool)
  | VInt (z : Z)
  | VStr (s : string).

(** The payload mapping [M] ([map[string]interface{}]). *)
Abbreviation M := (gmap string Value).

(** An [error] value; [None] is the nil error. *)
Definition error : Type := string.

(** Modelled from the spec: the event object [BasicEvent] (event.go is not
    among the sources): a name, a key/value payload and an abort flag. *)
Record BasicEvent : Type := mkEvent {
  e_name : string;
  e_data : M;
  e_aborted : bool
}.

(** [&BasicEvent{}]: the zero value. *)
Definition zero_event : BasicEvent :=
  {| e_name := ""; e_data := ∅; e_aborted := false |}.

(** Events are handled through pointers (the interface [Event] holds one):
    a location is an index into the heap of event objects. *)
Abbreviation loc := nat.

(** Modelled from the spec: the capability [Listener] (listener.go is not
    among the sources): one method [Handle], which may read and mutate the
    event it is given and returns an error or nil. [lid] identifies the
    listener in the record of calls. *)
Record Listener : Type := mkListener {
  lid : nat;
  handle : BasicEvent → BasicEvent * option error
}.

(** [ListenerItem{priority, listener}]. *)
Record ListenerItem : Type := mkItem {
  priority : Z;
  listener : Listener
}.

(** [ListenerQueue], the ordered items registered under one name
    (listener.go is not among the sources). *)
Module ListenerQueue.

Abbreviation t := (list ListenerItem).

(** Modelled from the spec: [Push] (listener.go is not among the sources):
    the item is appended and the queue is returned. *)
Definition Push (lq : t) (li : ListenerItem) : t := lq ++ [li].

(** Insertion into a queue sorted by descending priority, before the first
    item whose priority is not higher: an item that was registered before
    items of the same priority stays before them. *)
Fixpoint insert (x : ListenerItem) (lq : t) : t :=
  match lq with
  | [] => [x]
  | y :: r =>
      if priority x <? priority y then y :: insert x r else x :: y :: r
  end.

(** Modelled from the spec: [Sort] (listener.go is not among the sources):
    a stable sort by descending priority. *)
Definition Sort (lq : t) : t := foldr insert [] lq.

(** Modelled from the spec: [Items] (listener.go is not among the
    sources): the items in their current order. *)
Definition Items (lq : t) : list ListenerItem := lq.

End ListenerQueue.

(** Wildcard event name. *)
Definition Wildcard : string := "*".

(** [Manager]. [pool] holds the locations that [sync.Pool] currently
    keeps. *)
Record Manager : Type := mkManager {
  name : string;
  pool : list loc;
  events : gmap string loc;
  listeners : gmap string ListenerQueue.t;
  listenedNames : gmap string Z
}.

(** One call of a listener's [Handle]: who was called, the event as it was
    handed over, the error returned and the event as it was left. *)
Record Call : Type := mkCall {
  call_lid : nat;
  call_seen : BasicEvent;
  call_err : option error;
  call_left : BasicEvent
}.

(** The state a manager method runs in: the event objects, the manager and
    the record of listener calls made so far. *)
Record World : Type := mkWorld {
  heap : list BasicEvent;
  mgr : Manager;
  calls : list Call
}.

Definition set_heap (h : list BasicEvent) (w : World) : World :=
  {| heap := h; mgr := mgr w; calls := calls w |}.

Definition set_mgr (em : Manager) (w : World) : World :=
  {| heap := heap w; mgr := em; calls := calls w |}.

Definition set_pool (p : list loc) (em : Manager) : Manager :=
  {| name := name em; pool := p; events := events em;
     listeners := listeners em; listenedNames := listenedNames em |}.

Definition set_events (evs : gmap string loc) (em : Manager) : Manager :=
  {| name := name em; pool := pool em; events := evs;
     listeners := listeners em; listenedNames := listenedNames em |}.

Definition set_listeners (ls : gmap string ListenerQueue.t)
    (em : Manager) : Manager :=
  {| name := name em; pool := pool em; events := events em;
     listeners := ls; listenedNames := listenedNames em |}.

Definition set_listenedNames (ns : gmap string Z) (em : Manager) : Manager :=
  {| name := name em; pool := pool em; events := events em;
     listeners := listeners em; listenedNames := ns |}.

(** ** Results, panics and the monad of manager methods *)

Inductive PanicValue : Type :=
  | PanicString (msg : string)
  | PanicError (err : error)
  | PanicNilDeref.

Inductive Outcome (A : Type) : Type :=
  | Return (a : A)
  | Panic (v : PanicValue).
Arguments Return {A} a.
Arguments Panic {A} v.

Definition Go (A : Type) : Type := World → World * Outcome A.

#[global] Instance Go_ret : MRet Go := λ A a w, (w, Return a).

#[global] Instance Go_bind : MBind Go := λ A B f m w,
  match m w with
  | (w', Return a) => f a w'
  | (w', Panic v) => (w', Panic v)
  end.

Definition panic {A : Type} (v : PanicValue) : Go A := λ w, (w, Panic v).

Definition lift {A : Type} (o : Outcome A) : Go A := λ w, (w, o).

Definition get_mgr : Go Manager := λ w, (w, Return (mgr w)).

Definition modify_mgr (f : Manager → Manager) : Go unit :=
  λ w, (set_mgr (f (mgr w)) w, Return tt).

(** [int] is 64 bits wide: the value of an [int] expression. *)
Definition wrap64 (z : Z) : Z := (z + 2 ^ 63) mod 2 ^ 64 - 2 ^ 63.

(** ** Event objects behind pointers *)

(** Reading through a pointer; a location outside the heap stands for a nil
    or otherwise unusable [Event]. *)
Definition deref (e : loc) : Go BasicEvent := λ w,
  match heap w !! e with
  | Some ev => (w, Return ev)
  | None => (w, Panic PanicNilDeref)
  end.

Definition store (e : loc) (ev : BasicEvent) : Go unit :=
  λ w, (set_heap (<[e := ev]> (heap w)) w, Return tt).

(** [goodName]. *)
Definition goodName (name : string) : Outcome string :=
  let name := Str.TrimSpace name in
  if decide (name = "") then
    Panic (PanicString "event: the event name cannot be empty")
  else if negb (Str.goodNameReg_MatchString name) then
    Panic (PanicString
      "event: the event name is invalid, must match regex '^[a-zA-Z][\w-.]*$'")
  else Return name.

Module Event.

(** Modelled from the spec: [Name()] of an event (event.go is not among
    the sources). *)
Definition Name (e : loc) : Go string :=
  ev ← deref e; mret (e_name ev).

(** Modelled from the spec: [Aborted()] of an event (event.go is not
    among the sources). *)
Definition Aborted (e : loc) : Go bool :=
  ev ← deref e; mret (e_aborted ev).

(** Modelled from the spec: [SetName] (event.go is not among the
    sources): it applies the same validation as registration. *)
Definition SetName (e : loc) (name : string) : Go unit :=
  name ← lift (goodName name);
  ev ← deref e;
  store e {| e_name := name; e_data := e_data ev;
             e_aborted := e_aborted ev |}.

(** Modelled from the spec: [Fill(target, payload...)] (event.go is not
    among the sources): it initializes the payload from the mapping the
    arguments denote (no argument: the empty mapping). The target, nil at
    the one call in manager.go, is left out. *)
Definition Fill (e : loc) (args : M) : Go unit :=
  ev ← deref e;
  store e {| e_name := e_name ev; e_data := args;
             e_aborted := e_aborted ev |}.

(** Modelled from the spec: [reset] (event.go is not among the sources):
    payload cleared, abort flag cleared, name cleared. *)
Definition reset (e : loc) : Go unit :=
  _ ← deref e;
  store e {| e_name := ""; e_data := ∅; e_aborted := false |}.

End Event.

(** [li.listener.Handle(e)]: the listener runs on the object behind [e];
    the call is recorded. *)
Definition Handle (l : Listener) (e : loc) : Go (option error) := λ w,
  match heap w !! e with
  | None => (w, Panic PanicNilDeref)
  | Some ev =>
      let '(ev', err) := handle l ev in
      ({| heap := <[e := ev']> (heap w); mgr := mgr w;
          calls := calls w ++ [mkCall (lid l) ev err ev'] |}, Return err)
  end.

(** ** The reuse pool ([sync.Pool]) *)

(** [em.pool.New]: [&BasicEvent{}], a new object. *)
Definition pool_New : Go loc := λ w,
  (set_heap (heap w ++ [zero_event]) w, Return (length (heap w))).

(** [em.pool.Get()]: an arbitrary pooled object is removed and returned, or
    the pool is treated as empty and [New] is called. [pick] resolves the
    choice: [Some i] takes the [i]-th pooled object when there is one. *)
Definition pool_Get (pick : option nat) : Go loc := λ w,
  match pick ≫= (λ i, (pool (mgr w) !! i) ≫= (λ e, Some (i, e))) with
  | Some (i, e) => (set_mgr (set_pool (delete i (pool (mgr w))) (mgr w)) w,
                    Return e)
  | None => pool_New w
  end.

(** [em.pool.Put(e)]. *)
Definition pool_Put (e : loc) : Go unit :=
  modify_mgr (λ em, set_pool (e :: pool em) em).

(** ** The manager *)

(** [NewManager]. *)
Definition NewManager (name : string) : Manager :=
  {| name := name; pool := []; events := ∅; listeners := ∅;
     listenedNames := ∅ |}.

(** The world in which a new manager is the only object. *)
Definition new_world (name : string) : World :=
  {| heap := []; mgr := NewManager name; calls := [] |}.

(** [On]. A nil listener is [None]. *)
Definition On (name : string) (listener : option Listener) (priority : Z)
    : Go unit :=
  name ← lift (goodName name);
  match listener with
  | None =>
      panic (PanicString
        ("event: the event '" +:+ name +:+ "' listener cannot be empty"))
  | Some l =>
      let li := mkItem priority l in
      em ← get_mgr;
      match listeners em !! name with
      | Some lq =>
          modify_mgr (λ em, set_listenedNames
            (<[name := wrap64 (default 0 (listenedNames em !! name) + 1)]>
               (listenedNames em)) em);;
          modify_mgr (λ em, set_listeners
            (<[name := ListenerQueue.Push lq li]> (listeners em)) em)
      | None =>
          modify_mgr (λ em, set_listenedNames
            (<[name := 1]> (listenedNames em)) em);;
          modify_mgr (λ em, set_listeners
            (<[name := ListenerQueue.Push [] li]> (listeners em)) em)
      end
  end.

(** How a [for ... range] loop over listeners ends: it runs to its end, or
    its body executes [return] with the current [err]. *)
Inductive LoopExit : Type :=
  | Fallthrough
  | Returned (err : option error).

(** The loop
    [for _, li := range items { err = li.listener.Handle(e);
       if err != nil || e.Aborted() { return } }]. *)
Fixpoint rangeItems (e : loc) (items : list ListenerItem) : Go LoopExit :=
  match items with
  | [] => mret Fallthrough
  | li :: rest =>
      err ← Handle (listener li) e;
      match err with
      | Some _ => mret (Returned err)
      | None =>
          aborted ← Event.Aborted e;
          if aborted : bool then mret (Returned err) else rangeItems e rest
      end
  end.

(** [lq.Sort().Items()] for the queue stored under [key]: the queue is
    sorted in place, so the manager holds the sorted queue afterwards. *)
Definition sortedItems (key : string) (lq : ListenerQueue.t)
    : Go (list ListenerItem) :=
  let lq := ListenerQueue.Sort lq in
  modify_mgr (λ em, set_listeners (<[key := lq]> (listeners em)) em);;
  mret (ListenerQueue.Items lq).

(** [FireEvent]. The named result [err] is nil whenever a loop runs to its
    end, so the final [return] gives nil. *)
Definition FireEvent (e : loc) : Go (option error) :=
  name ← Event.Name e;
  em ← get_mgr;
  match listeners em !! name with
  | None => mret None
  | Some lq =>
      items ← sortedItems name lq;
      exact ← rangeItems e items;
      match exact with
      | Returned err => mret err
      | Fallthrough =>
          let pos := Str.LastIndexByte name "." in
          group ←
            (if (0 <? pos) && (pos <? Str.len name) then
               let groupName := Str.slice_to name pos +:+ Wildcard in
               em ← get_mgr;
               match listeners em !! groupName with
               | Some lq =>
                   items ← sortedItems groupName lq; rangeItems e items
               | None => mret Fallthrough
               end
             else mret Fallthrough);
          match group with
          | Returned err => mret err
          | Fallthrough =>
              em ← get_mgr;
              match listeners em !! Wildcard with
              | Some lq =>
                  items ← sortedItems Wildcard lq;
                  all ← rangeItems e items;
                  match all with
                  | Returned err => mret err
                  | Fallthrough => mret None
                  end
              | None => mret None
              end
          end
      end
  end.

(** [Fire]. [pick] is the choice [em.pool.Get()] makes. *)
Definition Fire (name : string) (args : M) (pick : option nat)
    : Go (option error) :=
  name ← lift (goodName name);
  em ← get_mgr;
  match events em !! name with
  | Some e => FireEvent e
  | None =>
      e ← pool_Get pick;
      Event.SetName e name;;
      Event.Fill e args;;
      err ← FireEvent e;
      Event.reset e;;
      pool_Put e;;
      mret err
  end.

(** [MustFire]. *)
Definition MustFire (name : string) (args : M) (pick : option nat)
    : Go unit :=
  err ← Fire name args pick;
  match err with
  | Some err => panic (PanicError err)
  | None => mret tt
  end.

(** [HasListeners]. *)
Definition HasListeners (name : string) : Go bool :=
  em ← get_mgr;
  mret (bool_decide (is_Some (listenedNames em !! name))).

(** [ClearListeners]. *)
Definition ClearListeners (name : string) : Go unit :=
  em ← get_mgr;
  match listenedNames em !! name with
  | Some _ =>
      modify_mgr (λ em,
        set_listenedNames (delete name (listenedNames em)) em);;
      modify_mgr (λ em, set_listeners (delete name (listeners em)) em)
  | None => mret tt
  end.

(** [AddEvent]. *)
Definition AddEvent (e : loc) : Go unit :=
  n ← Event.Name e;
  name ← lift (goodName n);
  modify_mgr (λ em, set_events (<[name := e]> (events em)) em).

(** [GetEvent]: the pair [(e, ok)] is [Some e] when [ok] and [None]
    otherwise. *)
Definition GetEvent (name : string) : Go (option loc) :=
  em ← get_mgr; mret (events em !! name).

(** [HasEvent]. *)
Definition HasEvent (name : string) : Go bool :=
  em ← get_mgr; mret (bool_decide (is_Some (events em !! name))).

(** [DelEvent]. *)
Definition DelEvent (name : string) : Go unit :=
  em ← get_mgr;
  match events em !! name with
  | Some _ => modify_mgr (λ em, set_events (delete name (events em)) em)
  | None => mret tt
  end.

(** [ClearEvents]. *)
Definition ClearEvents : Go unit :=
  modify_mgr (set_events ∅).

(** [Clear]. *)
Definition Clear : Go unit :=
  modify_mgr (λ em, {| name := ""; pool := pool em; events := ∅;
                       listeners := ∅; listenedNames := ∅ |}).

(** ** Sample listeners and worlds *)

Definition L_ok (i : nat) : Listener := mkListener i (λ ev, (ev, None)).

Definition L_fail (i : nat) (msg : error) : Listener :=
  mkListener i (λ ev, (ev, Some msg)).

Definition L_abort (i : nat) : Listener :=
  mkListener i (λ ev,
    ({| e_name := e_name ev; e_data := e_data ev; e_aborted := true |}, None)).

Definition L_set (i : nat) (k : string) (v : Value) : Listener :=
  mkListener i (λ ev,
    ({| e_name := e_name ev; e_data := <[k := v]> (e_data ev);
        e_aborted := e_aborted ev |}, None)).

(** The world after a run of a method, and its result. *)
Definition after {A : Type} (m : Go A) (w : World) : World := fst (m w).
Definition result {A : Type} (m : Go A) (w : World) : Outcome A := snd (m w).

(** The listeners called, in order, by the calls recorded in [cs]. *)
Definition lids (cs : list Call) : list nat := call_lid <$> cs.

(** A world in which the caller has built the events [evs] and a new
    manager. *)
Definition world_with (evs : list BasicEvent) : World :=
  {| heap := evs; mgr := NewManager "app"; calls := [] |}.

Definition w_group : World :=
  after (On "app.run" (Some (L_ok 1)) 0;;
         On "app.*" (Some (L_ok 2)) 0;;
         On "app*" (Some (L_ok 3)) 0)
        (world_with [mkEvent "app.run" ∅ false]).

Definition w_group2 : World :=
  after (On "app.user.created" (Some (L_ok 1)) 0;;
         On "app.user.*" (Some (L_ok 2)) 0)
        (world_with [mkEvent "app.user.created" ∅ false]).

Definition w_no_exact : World :=
  after (On "app.*" (Some (L_ok 2)) 0;;
         On "app*" (Some (L_ok 3)) 0)
        (world_with [mkEvent "app.run" ∅ false]).

(** A manager whose listener table holds a queue under the bare wildcard;
    [On] does not build it. *)
Definition w_star : World :=
  {| heap := [mkEvent "evt" ∅ false];
     mgr := {| name := "app"; pool := []; events := ∅;
               listeners := {[ Wildcard := [mkItem 0 (L_ok 4)] ]};
               listenedNames := {[ Wildcard := 1 ]} |};
     calls := [] |}.

Definition w_fail : World :=
  after (On "app.run" (Some (L_ok 2)) 0;;
         On "app.run" (Some (L_fail 1 "boom")) 10;;
         On "app*" (Some (L_ok 3)) 0;;
         On "app.end" (Some (L_fail 4 "halt")) 0;;
         On "app.end" (Some (L_ok 5)) 0)
        (world_with [mkEvent "app.run" ∅ false]).

Definition w_abort : World :=
  after (On "app.run" (Some (L_ok 2)) 0;;
         On "app.run" (Some (L_abort 1)) 10;;
         On "app*" (Some (L_ok 3)) 0;;
         On "app.end" (Some (L_abort 4)) 0;;
         On "app.end" (Some (L_ok 5)) 0)
        (world_with [mkEvent "app.run" ∅ false]).

(** After a first fire of ["e"] whose listeners add a key and abort: the
    scratch event is back in the pool. *)
Definition w_used : World :=
  after (On "e" (Some (L_set 1 "a" (VInt 1))) 0;;
         On "e" (Some (L_abort 2)) (-1);;
         On "e2" (Some (L_ok 3)) 0;;
         Fire "e" {[ "k" := VStr "v" ]} None)
        (new_world "app").

(** The caller has built two events named ["e1"] and added the first to
    the catalog. *)
Definition w_catalog : World :=
  after (On "e1" (Some (L_set 1 "a" (VInt 1))) 0;;
         AddEvent 0%nat)
        (world_with [mkEvent "e1" {[ "x" := VInt 7 ]} false;
                     mkEvent "e1" ∅ false]).

(** ** What a run of listeners looks like *)

(** A call after which the loop goes on: no error and no abort. *)
Definition clean (c : Call) : Prop :=
  call_err c = None ∧ e_aborted (call_left c) = false.

(** The call [Handle] records for listener item [li] on event [ev]. *)
Definition call_of (li : ListenerItem) (ev : BasicEvent) : Call :=
  mkCall (lid (listener li)) ev (snd (handle (listener li) ev))
         (fst (handle (listener li) ev)).

(** [chain items ev cs ev' x]: ranging over [items] from event state [ev]
    makes the calls [cs], leaves the event as [ev'] and ends as [x]. *)
Inductive chain : list ListenerItem → BasicEvent → list Call → BasicEvent
    → LoopExit → Prop :=
  | chain_end ev :
      chain [] ev [] ev Fallthrough
  | chain_stop li rest ev :
      ¬ clean (call_of li ev) →
      chain (li :: rest) ev [call_of li ev] (call_left (call_of li ev))
            (Returned (call_err (call_of li ev)))
  | chain_go li rest ev cs ev' x :
      clean (call_of li ev) →
      chain rest (call_left (call_of li ev)) cs ev' x →
      chain (li :: rest) ev (call_of li ev :: cs) ev' x.

(** Consecutive calls on one event object: each call sees the event as the
    call before left it. *)
Inductive linked : BasicEvent → list Call → BasicEvent → Prop :=
  | linked_nil ev : linked ev [] ev
  | linked_cons c cs ev' :
      linked (call_left c) cs ev' → linked (call_seen c) (c :: cs) ev'.

(** The calls of a whole dispatch that returned [r]: either every call is
    clean and [r] is nil, or the last call is the only one that is not and
    [r] is its error. *)
Definition stop_shape (cs : list Call) (r : option error) : Prop :=
  (Forall clean cs ∧ r = None)
  ∨ (∃ pre c, cs = pre ++ [c] ∧ Forall clean pre ∧ ¬ clean c
              ∧ r = call_err c).

(** What a dispatch on [e] may change: the object behind [e], the order
    inside the listener queues and the record of calls. *)
Record dispatched (e : loc) (w w' : World) (cs : list Call) : Prop := {
  d_length : length (heap w') = length (heap w);
  d_other : ∀ l, l ≠ e → heap w' !! l = heap w !! l;
  d_name : name (mgr w') = name (mgr w);
  d_pool : pool (mgr w') = pool (mgr w);
  d_events : events (mgr w') = events (mgr w);
  d_listened : listenedNames (mgr w') = listenedNames (mgr w);
  d_dom : dom (listeners (mgr w')) = dom (listeners (mgr w));
  d_calls : calls w' = calls w ++ cs
}.

(** ** Well-formed worlds *)

(** The pooled objects are distinct, live, reset, and none of them is a
    catalog event; every catalog event is live. *)
Record pool_ok (w : World) : Prop := {
  pool_nodup : NoDup (pool (mgr w));
  pool_reset : ∀ l, l ∈ pool (mgr w) → heap w !! l = Some zero_event;
  pool_apart : ∀ n l, events (mgr w) !! n = Some l → l ∉ pool (mgr w);
  catalog_live : ∀ n l, events (mgr w) !! n = Some l → is_Some (heap w !! l)
}.

(** ** Sequences of registry operations *)

Inductive Op : Type :=
  | OpOn (name : string) (listener : option Listener) (priority : Z)
  | OpClearListeners (name : string)
  | OpClear.

Definition run_op (o : Op) : Go unit :=
  match o with
  | OpOn name listener priority => On name listener priority
  | OpClearListeners name => ClearListeners name
  | OpClear => Clear
  end.

(** The operations run one after the other; a panic of [On] is recovered
    and the run goes on from the state the panic left. *)
Fixpoint run_ops (os : list Op) (w : World) : World :=
  match os with
  | [] => w
  | o :: os => run_ops os (after (run_op o) w)
  end.

(** ** Auxiliary notions *)

(** How one of the three loops of [FireEvent] may end. *)
Definition stage_ok (cs : list Call) (x : LoopExit) : Prop :=
  match x with
  | Fallthrough => Forall clean cs
  | Returned err =>
      ∃ pre c, cs = pre ++ [c] ∧ Forall clean pre ∧ ¬ clean c
               ∧ err = call_err c
  end.

(** The world in which the scratch event [e], taken out of [w0], has been
    given its name and payload. *)
Definition filled (e : loc) (n : string) (args : M) (w0 : World) : World :=
  set_heap (<[e := mkEvent n args false]> (heap w0)) w0.

(** The world in which the scratch event [e] has been reset and put back
    after the dispatch that left [w2]. *)
Definition released (e : loc) (w2 : World) : World :=
  set_mgr (set_pool (e :: pool (mgr w2)) (mgr w2))
          (set_heap (<[e := zero_event]> (heap w2)) w2).

(** The manager after [(priority, l)] has been registered under the valid
    name [n]. *)
Definition registered (n : string) (l : Listener) (priority : Z)
    (em : Manager) : Manager :=
  {| name := name em; pool := pool em; events := events em;
     listeners :=
       <[n := default [] (listeners em !! n) ++ [mkItem priority l]]>
         (listeners em);
     listenedNames :=
       <[n := match listeners em !! n with
              | Some _ => wrap64 (default 0 (listenedNames em !! n) + 1)
              | None => 1
              end]> (listenedNames em) |}.

(** In every case [On] leaves the two listener tables with the same
    names. *)
Definition tables_agree (em : Manager) : Prop :=
  ∀ n, is_Some (listenedNames em !! n) ↔ is_Some (listeners em !! n).

(** The calls of a dispatch and its outcome: a panic comes before any
    call. *)
Definition outcome_shape (cs : list Call) (out : Outcome (option error))
    : Prop :=
  match out with
  | Return r => stop_shape cs r
  | Panic _ => cs = []
  end.


(** ** The rest of manager.go *)

(** [callListeners]. The named result [err] is nil when the loop runs to
    its end. *)
Fixpoint callListeners (e : loc) (listeners : list Listener)
    : Go (option error) :=
  match listeners with
  | [] => mret None
  | listener :: rest =>
      err ← Handle listener e;
      match err with
      | Some _ => mret err
      | None =>
          aborted ← Event.Aborted e;
          if aborted : bool then mret err else callListeners e rest
      end
  end.

(** The group name [FireEvent] looks up for [name]:
    [pos := strings.LastIndexByte(name, '.')] and, when
    [pos > 0 && pos < len(name)], [name[:pos] + Wildcard]; [None] when no
    group is looked up. *)
Definition groupName (name : string) : option string :=
  let pos := Str.LastIndexByte name "." in
  if (0 <? pos) && (pos <? Str.len name)
  then Some (Str.slice_to name pos +:+ Wildcard)
  else None.

(** The items [FireEvent] ranges over for the queue under [key], if any. *)
Definition itemsAt (key : string) (em : Manager) : list ListenerItem :=
  match listeners em !! key with
  | Some lq => ListenerQueue.Items (ListenerQueue.Sort lq)
  | None => []
  end.

(** The listeners [FireEvent] is to call for an event named [name], in
    order: none when [name] has no queue of its own; otherwise the sorted
    queue of [name], then the sorted queue of the group name, then the
    sorted queue of the bare wildcard. *)
Definition plan (em : Manager) (name : string) : list ListenerItem :=
  match listeners em !! name with
  | None => []
  | Some _ =>
      itemsAt name em
      ++ match groupName name with
         | Some g => itemsAt g em
         | None => []
         end
      ++ itemsAt Wildcard em
  end.

(** The value [FireEvent] returns for the way its loops ended. *)
Definition exit_err (x : LoopExit) : option error :=
  match x with
  | Returned err => err
  | Fallthrough => None
  end.

(** No byte of [s] is [c]. *)
Fixpoint no_byte (c : ascii) (s : string) : bool :=
  match s with
  | EmptyString => true
  | String a r => negb (Ascii.eqb a c) && no_byte c r
  end.

(** The queues of [ls'] are those of [ls], each with its items in some
    order. *)
Definition reordered (ls ls' : gmap string ListenerQueue.t) : Prop :=
  ∀ k, match ls !! k, ls' !! k with
       | Some lq, Some lq' => lq ≡ₚ lq'
       | None, None => True
       | _, _ => False
       end.

(** What no dispatch changes: the manager's name, the catalog, the counts
    and, up to the order inside each queue, the listeners. *)
Record same_registry (w w' : World) : Prop := {
  reg_name : name (mgr w') = name (mgr w);
  reg_events : events (mgr w') = events (mgr w);
  reg_listened : listenedNames (mgr w') = listenedNames (mgr w);
  reg_listeners : reordered (listeners (mgr w)) (listeners (mgr w'))
}.

(** An event that is already aborted when it is fired, with two listeners
    under its name. *)
Definition w_aborted : World :=
  after (On "app.run" (Some (L_ok 1)) 0;;
         On "app.run" (Some (L_ok 2)) 5)
        (world_with [mkEvent "app.run" ∅ true]).

(** ** Sequences of calls of the manager's methods *)

Inductive Api : Type :=
  | ApiOn (name : string) (listener : option Listener) (priority : Z)
  | ApiFire (name : string) (args : M) (pick : option nat)
  | ApiMustFire (name : string) (args : M) (pick : option nat)
  | ApiFireEvent (e : loc)
  | ApiHasListeners (name : string)
  | ApiClearListeners (name : string)
  | ApiAddEvent (e : loc)
  | ApiGetEvent (name : string)
  | ApiHasEvent (name : string)
  | ApiDelEvent (name : string)
  | ApiClearEvents
  | ApiClear.

(** The world one call leaves, whatever it returns and whether it panics
    (a panic is recovered by the caller). *)
Definition run_call (c : Api) (w : World) : World :=
  match c with
  | ApiOn name listener priority => after (On name listener priority) w
  | ApiFire name args pick => after (Fire name args pick) w
  | ApiMustFire name args pick => after (MustFire name args pick) w
  | ApiFireEvent e => after (FireEvent e) w
  | ApiHasListeners name => after (HasListeners name) w
  | ApiClearListeners name => after (ClearListeners name) w
  | ApiAddEvent e => after (AddEvent e) w
  | ApiGetEvent name => after (GetEvent name) w
  | ApiHasEvent name => after (HasEvent name) w
  | ApiDelEvent name => after (DelEvent name) w
  | ApiClearEvents => after ClearEvents w
  | ApiClear => after Clear w
  end.

Definition run_api (cs : list Api) (w : World) : World :=
  foldl (λ w c, run_call c w) w cs.

(** A catalog event that was renamed by its owner after [AddEvent]: it is
    stored under ["e1"] and now carries the name ["e9"]. *)
Definition w_renamed : World :=
  after (On "e1" (Some (L_ok 1)) 0;;
         AddEvent 0%nat;;
         Event.SetName 0%nat "e9")
        (world_with [mkEvent "e1" ∅ false]).


(** Registrations under one name with a fire of that name in between. *)
Definition api_sample : list Api :=
  [ApiOn "app.run" (Some (L_ok 1)) 0;
   ApiOn " app.run" (Some (L_ok 2)) 5;
   ApiOn "app.end" (Some (L_ok 4)) 0;
   ApiFire "app.run" ∅ None;
   ApiOn "app.run " (Some (L_ok 3)) 0;
   ApiClearListeners "app.end"].

(** Every key of the three tables is a name that [goodName] returns as it
    is, and the two listener tables hold the same names. *)
Record keys_ok (em : Manager) : Prop := {
  keys_listeners : ∀ k, is_Some (listeners em !! k) → goodName k = Return k;
  keys_events : ∀ k, is_Some (events em !! k) → goodName k = Return k;
  keys_agree : tables_agree em
}.

(** No queue is empty, and [listenedNames] counts the items of each queue,
    as an [int]. *)
Definition counts_ok (em : Manager) : Prop :=
  ∀ k lq, listeners em !! k = Some lq →
          lq ≠ []
          ∧ listenedNames em !! k = Some (wrap64 (Z.of_nat (length lq))).

(** ** Basic facts *)

Lemma bind_Return {A B : Type} (m : Go A) (f : A → Go B) w w' a :
  m w = (w', Return a) → (m ≫= f) w = f a w'.
Proof. intros H. unfold mbind, Go_bind. by rewrite H. Qed.

Lemma bind_Panic {A B : Type} (m : Go A) (f : A → Go B) w w' v :
  m w = (w', Panic v) → (m ≫= f) w = (w', Panic v).
Proof. intros H. unfold mbind, Go_bind. by rewrite H. Qed.

Lemma linked_app ev cs1 ev1 cs2 ev2 :
  linked ev cs1 ev1 → linked ev1 cs2 ev2 → linked ev (cs1 ++ cs2) ev2.
Proof.
  induction 1 as [|c cs ev' _ IH]; intros H2; simpl; [done|].
  constructor. by apply IH.
Qed.

Lemma chain_linked items ev cs ev' x :
  chain items ev cs ev' x → linked ev cs ev'.
Proof.
  induction 1 as [ev|li rest ev Hc|li rest ev cs ev' x Hc _ IH].
  - constructor.
  - apply (linked_cons (call_of li ev) []). constructor.
  - by apply (linked_cons (call_of li ev)).
Qed.

Lemma chain_Fallthrough items ev cs ev' :
  chain items ev cs ev' Fallthrough → Forall clean cs.
Proof.
  intros H. remember Fallthrough as x eqn:Hx.
  induction H; try discriminate; constructor; auto.
Qed.

Lemma chain_Returned items ev cs ev' err :
  chain items ev cs ev' (Returned err) →
  ∃ pre c,
    cs = pre ++ [c] ∧ Forall clean pre ∧ ¬ clean c ∧ err = call_err c.
Proof.
  intros H. remember (Returned err) as x eqn:Hx.
  induction H as [ev|li rest ev Hc|li rest ev cs ev' x Hc _ IH].
  - discriminate.
  - injection Hx as <-. by exists [], (call_of li ev).
  - destruct (IH Hx) as (pre & c & -> & Hpre & Hnc & ->).
    exists (call_of li ev :: pre), c. repeat split; auto.
Qed.

Lemma stop_shape_app cs1 cs2 r :
  Forall clean cs1 → stop_shape cs2 r → stop_shape (cs1 ++ cs2) r.
Proof.
  intros H1 [[H2 ->]|(pre & c & -> & Hpre & Hnc & ->)].
  - left. split; [by apply Forall_app|done].
  - right. exists (cs1 ++ pre), c. rewrite <- (assoc_L (++)).
    repeat split; auto. by apply Forall_app.
Qed.

Lemma stop_shape_last cs r pre c post :
  stop_shape cs r → cs = pre ++ c :: post → ¬ clean c →
  post = [] ∧ r = call_err c.
Proof.
  intros [[Hall ->]|(pre' & c' & -> & Hpre & Hnc & ->)] Hcs Hc.
  - subst cs. apply Forall_app in Hall as [_ Hall].
    apply Forall_cons in Hall as [Hall _]. done.
  - destruct post as [|d post _] using rev_ind.
    + apply app_inj_tail in Hcs as [_ ->]. done.
    + rewrite app_comm_cons, (assoc_L (++)) in Hcs.
      apply app_inj_tail in Hcs as [-> _].
      apply Forall_app in Hpre as [_ Hpre].
      apply Forall_cons in Hpre as [Hpre _]. done.
Qed.

Lemma dispatched_refl e w : dispatched e w w [].
Proof. split; try done. by rewrite (right_id_L [] (++)). Qed.

Lemma dispatched_trans e w w1 w2 cs1 cs2 :
  dispatched e w w1 cs1 → dispatched e w1 w2 cs2 →
  dispatched e w w2 (cs1 ++ cs2).
Proof.
  intros [] []. split; try congruence.
  - intros l Hl. rewrite d_other1, d_other0; done.
  - rewrite d_calls1, d_calls0. by rewrite (assoc_L (++)).
Qed.

(** ** The dispatch loop *)

Lemma Handle_run li e w ev :
  heap w !! e = Some ev →
  Handle (listener li) e w
  = (mkWorld (<[e := call_left (call_of li ev)]> (heap w)) (mgr w)
             (calls w ++ [call_of li ev]),
     Return (call_err (call_of li ev))).
Proof.
  intros Hev. unfold Handle, call_of. rewrite Hev. simpl.
  by destruct (handle (listener li) ev).
Qed.

Lemma deref_run e w ev :
  heap w !! e = Some ev → deref e w = (w, Return ev).
Proof. intros H. unfold deref. by rewrite H. Qed.

Lemma Name_run e w ev :
  heap w !! e = Some ev → Event.Name e w = (w, Return (e_name ev)).
Proof.
  intros H. unfold Event.Name.
  by rewrite (bind_Return _ _ _ _ _ (deref_run e w ev H)).
Qed.

Lemma Aborted_run e w ev :
  heap w !! e = Some ev → Event.Aborted e w = (w, Return (e_aborted ev)).
Proof.
  intros H. unfold Event.Aborted.
  by rewrite (bind_Return _ _ _ _ _ (deref_run e w ev H)).
Qed.

Lemma rangeItems_chain e items : ∀ w ev,
  heap w !! e = Some ev →
  ∃ cs ev' x,
    rangeItems e items w
    = (mkWorld (<[e := ev']> (heap w)) (mgr w) (calls w ++ cs), Return x)
    ∧ chain items ev cs ev' x.
Proof.
  induction items as [|li rest IH]; intros w ev Hev.
  - exists [], ev, Fallthrough. split; [|constructor].
    rewrite (list_insert_id _ _ _ Hev), (right_id_L [] (++)).
    by destruct w.
  - simpl. rewrite (bind_Return _ _ _ _ _ (Handle_run li e w ev Hev)).
    set (c := call_of li ev).
    set (w1 := mkWorld (<[e := call_left c]> (heap w)) (mgr w)
                       (calls w ++ [c])).
    assert (Hev1 : heap w1 !! e = Some (call_left c)).
    { simpl. apply list_lookup_insert_eq. by eapply lookup_lt_Some. }
    destruct (call_err c) as [err|] eqn:Herr.
    + exists [c], (call_left c), (Returned (call_err c)). split.
      * by rewrite Herr.
      * apply chain_stop. intros [Hn _]. fold c in Hn. congruence.
    + rewrite (bind_Return _ _ _ _ _ (Aborted_run e w1 _ Hev1)).
      destruct (e_aborted (call_left c)) eqn:Hab.
      * exists [c], (call_left c), (Returned (call_err c)). split.
        -- by rewrite Herr.
        -- apply chain_stop. intros [_ Hn]. fold c in Hn. congruence.
      * destruct (IH w1 (call_left c) Hev1) as (cs & ev' & x & Hrun & Hch).
        exists (c :: cs), ev', x. split.
        -- rewrite Hrun. unfold w1. simpl.
           rewrite list_insert_insert_eq, <- (assoc_L (++)). done.
        -- by apply chain_go.
Qed.

Lemma chain_stage_ok items ev cs ev' x :
  chain items ev cs ev' x → stage_ok cs x.
Proof.
  destruct x; simpl; [apply chain_Fallthrough|apply chain_Returned].
Qed.

Lemma sortedItems_run key lq w :
  sortedItems key lq w
  = (set_mgr (set_listeners (<[key := ListenerQueue.Sort lq]>
                               (listeners (mgr w))) (mgr w)) w,
     Return (ListenerQueue.Sort lq)).
Proof. reflexivity. Qed.

(** One loop of [FireEvent]: the queue found under [key] is sorted in place
    and ranged over. *)
Lemma stage_run e key lq w ev :
  heap w !! e = Some ev →
  listeners (mgr w) !! key = Some lq →
  ∃ cs ev' x w',
    rangeItems e (ListenerQueue.Sort lq)
      (set_mgr (set_listeners (<[key := ListenerQueue.Sort lq]>
                                 (listeners (mgr w))) (mgr w)) w)
    = (w', Return x)
    ∧ dispatched e w w' cs
    ∧ heap w' !! e = Some ev'
    ∧ chain (ListenerQueue.Sort lq) ev cs ev' x.
Proof.
  intros Hev Hlq.
  set (w0 := set_mgr _ w).
  destruct (rangeItems_chain e (ListenerQueue.Sort lq) w0 ev Hev)
    as (cs & ev' & x & Hrun & Hch).
  eexists cs, ev', x, _. split; [exact Hrun|].
  assert (Hlt : (e < length (heap w))%nat) by by eapply lookup_lt_Some.
  split; [|split; [|done]].
  - split; simpl; try done.
    + apply length_insert.
    + intros l Hl. by apply list_lookup_insert_ne.
    + rewrite dom_insert_L.
      apply subseteq_union_1_L, singleton_subseteq_l, elem_of_dom. eauto.
  - simpl. by apply list_lookup_insert_eq.
Qed.

(** [FireEvent] on a live event returns; it changes nothing but the event,
    the order inside the queues and the record of calls, and its calls
    stop at the first one that is not clean. *)
Lemma FireEvent_run e w ev :
  heap w !! e = Some ev →
  ∃ cs ev' r w',
    FireEvent e w = (w', Return r)
    ∧ dispatched e w w' cs
    ∧ heap w' !! e = Some ev'
    ∧ linked ev cs ev'
    ∧ stop_shape cs r.
Proof.
  intros Hev. unfold FireEvent.
  rewrite (bind_Return _ _ _ _ _ (Name_run e w ev Hev)).
  rewrite (bind_Return get_mgr _ w w (mgr w) eq_refl).
  destruct (listeners (mgr w) !! e_name ev) as [lq|] eqn:Hlq.
  2:{ exists [], ev, None, w.
      split; [done|]. split; [apply dispatched_refl|]. split; [done|].
      split; [apply linked_nil|]. left. by split. }
  rewrite (bind_Return _ _ _ _ _ (sortedItems_run _ lq w)).
  destruct (stage_run e _ lq w ev Hev Hlq)
    as (cs1 & ev1 & x1 & w1 & Hrun1 & Hd1 & Hev1 & Hch1).
  rewrite (bind_Return _ _ _ _ _ Hrun1).
  pose proof (chain_stage_ok _ _ _ _ _ Hch1) as Hok1.
  pose proof (chain_linked _ _ _ _ _ Hch1) as Hl1.
  destruct x1 as [|err1].
  2:{ exists cs1, ev1, err1, w1. split; [reflexivity|].
      split; [exact Hd1|]. split; [exact Hev1|]. split; [exact Hl1|].
      right. exact Hok1. }
  simpl in Hok1.
  (* the group loop *)
  set (pos := Str.LastIndexByte (e_name ev) ".").
  set (gname := Str.slice_to (e_name ev) pos +:+ Wildcard).
  assert (Hgroup : ∃ cs2 ev2 x2 w2,
    (if (0 <? pos) && (pos <? Str.len (e_name ev)) then
       get_mgr ≫= λ em,
         match listeners em !! gname with
         | Some lq => sortedItems gname lq ≫= λ items, rangeItems e items
         | None => mret Fallthrough
         end
     else mret Fallthrough) w1 = (w2, Return x2)
    ∧ dispatched e w1 w2 cs2 ∧ heap w2 !! e = Some ev2
    ∧ linked ev1 cs2 ev2 ∧ stage_ok cs2 x2).
  { assert (Hskip : ∃ cs2 ev2 x2 w2,
      (mret Fallthrough : Go LoopExit) w1 = (w2, Return x2)
      ∧ dispatched e w1 w2 cs2 ∧ heap w2 !! e = Some ev2
      ∧ linked ev1 cs2 ev2 ∧ stage_ok cs2 x2).
    { exists [], ev1, Fallthrough, w1.
      split; [done|]. split; [apply dispatched_refl|]. split; [done|].
      split; [apply linked_nil|apply Forall_nil_2]. }
    destruct ((0 <? pos) && (pos <? Str.len (e_name ev))); [|exact Hskip].
    rewrite (bind_Return get_mgr _ w1 w1 (mgr w1) eq_refl).
    destruct (listeners (mgr w1) !! gname) as [lq2|] eqn:Hlq2; [|exact Hskip].
    rewrite (bind_Return _ _ _ _ _ (sortedItems_run _ lq2 w1)).
    destruct (stage_run e _ lq2 w1 ev1 Hev1 Hlq2)
      as (cs2 & ev2 & x2 & w2 & Hrun2 & Hd2 & Hev2 & Hch2).
    exists cs2, ev2, x2, w2. split; [exact Hrun2|].
    split; [exact Hd2|]. split; [exact Hev2|].
    split; [by eapply chain_linked|by eapply chain_stage_ok]. }
  destruct Hgroup as (cs2 & ev2 & x2 & w2 & Hrun2 & Hd2 & Hev2 & Hl2 & Hok2).
  rewrite (bind_Return _ _ _ _ _ Hrun2).
  pose proof (dispatched_trans _ _ _ _ _ _ Hd1 Hd2) as Hd12.
  pose proof (linked_app _ _ _ _ _ Hl1 Hl2) as Hl12.
  destruct x2 as [|err2].
  2:{ exists (cs1 ++ cs2), ev2, err2, w2. split; [reflexivity|].
      split; [exact Hd12|]. split; [exact Hev2|]. split; [exact Hl12|].
      apply stop_shape_app; [done|]. right. exact Hok2. }
  simpl in Hok2.
  (* the wildcard loop *)
  rewrite (bind_Return get_mgr _ w2 w2 (mgr w2) eq_refl).
  destruct (listeners (mgr w2) !! Wildcard) as [lq3|] eqn:Hlq3.
  2:{ exists (cs1 ++ cs2), ev2, None, w2. split; [reflexivity|].
      split; [exact Hd12|]. split; [exact Hev2|]. split; [exact Hl12|].
      left. split; [by apply Forall_app|done]. }
  rewrite (bind_Return _ _ _ _ _ (sortedItems_run _ lq3 w2)).
  destruct (stage_run e _ lq3 w2 ev2 Hev2 Hlq3)
    as (cs3 & ev3 & x3 & w3 & Hrun3 & Hd3 & Hev3 & Hch3).
  rewrite (bind_Return _ _ _ _ _ Hrun3).
  pose proof (dispatched_trans _ _ _ _ _ _ Hd12 Hd3) as Hd123.
  pose proof (linked_app _ _ _ _ _ Hl12 (chain_linked _ _ _ _ _ Hch3)) as Hl123.
  pose proof (chain_stage_ok _ _ _ _ _ Hch3) as Hok3.
  destruct x3 as [|err3]; simpl in Hok3.
  - exists ((cs1 ++ cs2) ++ cs3), ev3, None, w3. split; [reflexivity|].
    split; [exact Hd123|]. split; [exact Hev3|]. split; [exact Hl123|].
    left. split; [|done]. apply Forall_app. split; [|done].
    by apply Forall_app.
  - exists ((cs1 ++ cs2) ++ cs3), ev3, err3, w3. split; [reflexivity|].
    split; [exact Hd123|]. split; [exact Hev3|]. split; [exact Hl123|].
    apply stop_shape_app; [by apply Forall_app|]. right. exact Hok3.
Qed.

(** ** Names *)

Lemma in_class_low c :
  Str.in_class c = true → Str.space1 c = false ∧ (Str.byte c < 128)%N.
Proof.
  destruct c as [b0 b1 b2 b3 b4 b5 b6 b7].
  destruct b7.
  - destruct b0, b1, b2, b3, b4, b5, b6; vm_compute; intros H; discriminate H.
  - destruct b0, b1, b2, b3, b4, b5, b6; vm_compute; intros H;
      (discriminate H || (split; reflexivity)).
Qed.

Lemma space2_low_l a b : (Str.byte a < 128)%N → Str.space2 a b = false.
Proof.
  intros H. unfold Str.space2.
  destruct (N.eqb_spec (Str.byte a) 194); [lia|done].
Qed.

Lemma space2_low_r a b : (Str.byte a < 128)%N → Str.space2 b a = false.
Proof.
  intros H. unfold Str.space2.
  destruct (N.eqb_spec (Str.byte a) 133); [lia|].
  destruct (N.eqb_spec (Str.byte a) 160); [lia|].
  apply andb_false_r.
Qed.

Lemma space3_low_l a b c : (Str.byte a < 128)%N → Str.space3 a b c = false.
Proof.
  intros H. unfold Str.space3.
  destruct (N.eqb_spec (Str.byte a) 225); [lia|].
  destruct (N.eqb_spec (Str.byte a) 226); [lia|].
  destruct (N.eqb_spec (Str.byte a) 227); [lia|done].
Qed.

Lemma space3_low_r a b c : (Str.byte a < 128)%N → Str.space3 c b a = false.
Proof.
  intros H. unfold Str.space3, Str.between.
  destruct (N.eqb_spec (Str.byte a) 128); [lia|].
  destruct (N.eqb_spec (Str.byte a) 175); [lia|].
  destruct (N.eqb_spec (Str.byte a) 159); [lia|].
  destruct (N.leb_spec 128 (Str.byte a)); [lia|].
  destruct (N.leb_spec 168 (Str.byte a)); [lia|].
  simpl. by rewrite !andb_false_r.
Qed.

Lemma TrimLeftSpace_class s :
  Str.all_in_class s = true → Str.TrimLeftSpace s = s.
Proof.
  destruct s as [|a r1]; [done|]. simpl.
  intros [Ha _]%andb_true_iff. apply in_class_low in Ha as [Hs Hlow].
  rewrite Hs. destruct r1 as [|b r2]; [done|].
  rewrite (space2_low_l _ _ Hlow). destruct r2 as [|c r3]; [done|].
  by rewrite (space3_low_l _ _ _ Hlow).
Qed.

Lemma trim_left_rev_class s :
  Str.all_in_class s = true → Str.trim_left_rev s = s.
Proof.
  destruct s as [|a r1]; [done|]. simpl.
  intros [Ha _]%andb_true_iff. apply in_class_low in Ha as [Hs Hlow].
  rewrite Hs. destruct r1 as [|b r2]; [done|].
  rewrite (space2_low_r _ _ Hlow). destruct r2 as [|c r3]; [done|].
  by rewrite (space3_low_r _ _ _ Hlow).
Qed.

Lemma rev_app_class s1 : ∀ s2,
  Str.all_in_class s1 = true → Str.all_in_class s2 = true →
  Str.all_in_class (String.rev_app s1 s2) = true.
Proof.
  induction s1 as [|a s1 IH]; intros s2 H1 H2; simpl in *; [done|].
  apply andb_true_iff in H1 as [Ha H1]. apply IH; [done|].
  simpl. by rewrite Ha, H2.
Qed.

Lemma rev_app_rev_app s1 : ∀ s2 s3,
  String.rev_app (String.rev_app s1 s2) s3 = String.rev_app s2 (s1 +:+ s3).
Proof.
  induction s1 as [|a s1 IH]; intros s2 s3; simpl; [done|].
  by rewrite IH.
Qed.

Lemma string_app_nil_r s : s +:+ "" = s.
Proof.
  induction s as [|a s IH]; simpl; [done|].
  unfold String.app in *. simpl. by rewrite IH.
Qed.

Lemma rev_rev s : String.rev (String.rev s) = s.
Proof.
  unfold String.rev. rewrite rev_app_rev_app. simpl. apply string_app_nil_r.
Qed.

Lemma TrimSpace_class s :
  Str.all_in_class s = true → Str.TrimSpace s = s.
Proof.
  intros H. unfold Str.TrimSpace, Str.TrimRightSpace.
  rewrite (TrimLeftSpace_class s H).
  rewrite trim_left_rev_class; [apply rev_rev|].
  by apply rev_app_class.
Qed.

Lemma is_letter_in_class c : Str.is_letter c = true → Str.in_class c = true.
Proof. intros H. unfold Str.in_class, Str.is_word. by rewrite H. Qed.

Lemma MatchString_class s :
  Str.goodNameReg_MatchString s = true → Str.all_in_class s = true.
Proof.
  destruct s as [|c r]; [done|]. simpl.
  intros [Hc Hr]%andb_true_iff. by rewrite (is_letter_in_class c Hc), Hr.
Qed.

(** What [goodName] returns: the trimmed name, which is not empty and
    matches the pattern. *)
Lemma goodName_Return name n :
  goodName name = Return n ↔
  n = Str.TrimSpace name ∧ n ≠ "" ∧ Str.goodNameReg_MatchString n = true.
Proof.
  unfold goodName. case_decide as He.
  - split; [done|]. intros (-> & Hne & _). done.
  - destruct (Str.goodNameReg_MatchString (Str.TrimSpace name)) eqn:Hm; simpl.
    + split; [by intros [= <-]|]. by intros (-> & _ & _).
    + split; [done|]. intros (-> & _ & Hm'). congruence.
Qed.

Lemma goodName_Panic name :
  (∃ v, goodName name = Panic v) ↔
  Str.TrimSpace name = ""
  ∨ Str.goodNameReg_MatchString (Str.TrimSpace name) = false.
Proof.
  unfold goodName. case_decide as He.
  - split; [by left|eauto].
  - destruct (Str.goodNameReg_MatchString (Str.TrimSpace name)) eqn:Hm; simpl.
    + split; [by intros [v [=]]|]. by intros [?|?].
    + split; [by right|eauto].
Qed.

(** A name that [goodName] returned passes [goodName] unchanged. *)
Lemma goodName_idem name n :
  goodName name = Return n → goodName n = Return n.
Proof.
  intros (_ & Hne & Hm)%goodName_Return. apply goodName_Return.
  split; [|done]. symmetry. by apply TrimSpace_class, MatchString_class.
Qed.

(** ** The scratch-event pool *)

Lemma pool_ok_new_world nm : pool_ok (new_world nm).
Proof.
  split; simpl.
  - constructor.
  - intros l Hl. by apply elem_of_nil in Hl.
  - intros n l Hn. by rewrite lookup_empty in Hn.
  - intros n l Hn. by rewrite lookup_empty in Hn.
Qed.

Lemma pool_New_fresh w :
  pool_ok w →
  ∃ e w0,
    pool_New w = (w0, Return e)
    ∧ heap w0 !! e = Some zero_event
    ∧ (e ∉ pool (mgr w0))
    ∧ (∀ n, events (mgr w) !! n ≠ Some e)
    ∧ pool_ok w0
    ∧ events (mgr w0) = events (mgr w)
    ∧ listeners (mgr w0) = listeners (mgr w)
    ∧ calls w0 = calls w.
Proof.
  intros Hok. eexists (length (heap w)), _. split; [reflexivity|]. simpl.
  split; [by rewrite lookup_app_r, Nat.sub_diag|].
  split.
  { intros Hin. apply (pool_reset w Hok) in Hin.
    apply lookup_lt_Some in Hin. lia. }
  split.
  { intros n Hn. apply (catalog_live w Hok) in Hn as [ev Hev].
    apply lookup_lt_Some in Hev. lia. }
  split; [|done].
  split; simpl.
  - apply (pool_nodup w Hok).
  - intros l Hl. apply lookup_app_l_Some, (pool_reset w Hok), Hl.
  - apply (pool_apart w Hok).
  - intros n l Hn. destruct (catalog_live w Hok n l Hn) as [ev Hev].
    exists ev. by apply lookup_app_l_Some.
Qed.

(** [em.pool.Get()] in a well-formed world: the object handed out is in its
    zero state, is no longer pooled and is no catalog event; nothing else
    changes. *)
Lemma pool_Get_run pick w :
  pool_ok w →
  ∃ e w0,
    pool_Get pick w = (w0, Return e)
    ∧ heap w0 !! e = Some zero_event
    ∧ (e ∉ pool (mgr w0))
    ∧ (∀ n, events (mgr w) !! n ≠ Some e)
    ∧ pool_ok w0
    ∧ events (mgr w0) = events (mgr w)
    ∧ listeners (mgr w0) = listeners (mgr w)
    ∧ calls w0 = calls w.
Proof.
  intros Hok. unfold pool_Get.
  destruct pick as [i|]; simpl;
    [destruct (pool (mgr w) !! i) as [e|] eqn:Hi; simpl|].
  - (* a pooled object is taken *)
    eexists e, _. split; [reflexivity|]. simpl.
    assert (He : e ∈ pool (mgr w)) by (apply list_elem_of_lookup; eauto).
    assert (Hsub : ∀ l, l ∈ delete i (pool (mgr w)) → l ∈ pool (mgr w)).
    { intros l. apply list_elem_of_delete_inv. }
    split; [by apply (pool_reset w Hok)|].
    split.
    { pose proof (pool_nodup w Hok) as Hnd.
      rewrite <- (take_drop_middle _ _ _ Hi) in Hnd.
      rewrite delete_take_drop.
      apply NoDup_app in Hnd as (_ & Hnd1 & Hnd2).
      apply NoDup_cons in Hnd2 as [Hnd2 _].
      intros [Hin|Hin]%elem_of_app; [|done].
      apply (Hnd1 e Hin). left. }
    split; [intros n Hn; by apply (pool_apart w Hok n e Hn)|].
    split; [|done].
    split; simpl.
    + eapply sublist_NoDup; [apply (pool_nodup w Hok)|apply sublist_delete].
    + intros l Hl. apply (pool_reset w Hok), Hsub, Hl.
    + intros n l Hn Hl. apply (pool_apart w Hok n l Hn), Hsub, Hl.
    + apply (catalog_live w Hok).
  - by apply pool_New_fresh.
  - by apply pool_New_fresh.
Qed.

Lemma SetName_run e n w ev :
  goodName n = Return n → heap w !! e = Some ev →
  Event.SetName e n w
  = (set_heap (<[e := mkEvent n (e_data ev) (e_aborted ev)]> (heap w)) w,
     Return tt).
Proof.
  intros Hn Hev. unfold Event.SetName.
  rewrite (bind_Return (lift (goodName n)) _ w w n)
    by (unfold lift; by rewrite Hn).
  by rewrite (bind_Return _ _ _ _ _ (deref_run e w ev Hev)).
Qed.

Lemma Fill_run e args w ev :
  heap w !! e = Some ev →
  Event.Fill e args w
  = (set_heap (<[e := mkEvent (e_name ev) args (e_aborted ev)]> (heap w)) w,
     Return tt).
Proof.
  intros Hev. unfold Event.Fill.
  by rewrite (bind_Return _ _ _ _ _ (deref_run e w ev Hev)).
Qed.

Lemma reset_run e w ev :
  heap w !! e = Some ev →
  Event.reset e w = (set_heap (<[e := zero_event]> (heap w)) w, Return tt).
Proof.
  intros Hev. unfold Event.reset.
  by rewrite (bind_Return _ _ _ _ _ (deref_run e w ev Hev)).
Qed.

(** [Fire] on a name that has a catalog event is [FireEvent] on that
    event. *)
Lemma Fire_catalog nm n args pick w e :
  goodName nm = Return n → events (mgr w) !! n = Some e →
  Fire nm args pick w = FireEvent e w.
Proof.
  intros Hn He. unfold Fire.
  rewrite (bind_Return (lift (goodName nm)) _ w w n)
    by (unfold lift; by rewrite Hn).
  rewrite (bind_Return get_mgr _ w w (mgr w) eq_refl).
  by rewrite He.
Qed.

(** [Fire] on a name without catalog event, step by step. *)
Lemma Fire_scratch nm n args pick w :
  pool_ok w → goodName nm = Return n → events (mgr w) !! n = None →
  ∃ e w0 w2 cs ev' r,
    pool_Get pick w = (w0, Return e)
    ∧ heap w0 !! e = Some zero_event
    ∧ FireEvent e (filled e n args w0) = (w2, Return r)
    ∧ Fire nm args pick w = (released e w2, Return r)
    ∧ calls (released e w2) = calls w ++ cs
    ∧ linked (mkEvent n args false) cs ev'
    ∧ stop_shape cs r
    ∧ pool_ok (released e w2).
Proof.
  intros Hok Hn Hnone.
  destruct (pool_Get_run pick w Hok)
    as (e & w0 & Hget & Hzero & Hfresh & Hcat & Hok0 & Hevs0 & Hls0 & Hcs0).
  assert (Hlt : (e < length (heap w0))%nat) by by eapply lookup_lt_Some.
  set (w1 := filled e n args w0).
  assert (Hev1 : heap w1 !! e = Some (mkEvent n args false)).
  { simpl. by apply list_lookup_insert_eq. }
  destruct (FireEvent_run e w1 _ Hev1)
    as (cs & ev' & r & w2 & Hfire & Hd & Hev2 & Hlink & Hshape).
  exists e, w0, w2, cs, ev', r.
  split; [exact Hget|]. split; [exact Hzero|]. split; [exact Hfire|].
  split.
  { unfold Fire.
    rewrite (bind_Return (lift (goodName nm)) _ w w n)
      by (unfold lift; by rewrite Hn).
    rewrite (bind_Return get_mgr _ w w (mgr w) eq_refl).
    rewrite Hnone.
    rewrite (bind_Return _ _ _ _ _ Hget).
    rewrite (bind_Return _ _ _ _ _
               (SetName_run e n w0 _ (goodName_idem _ _ Hn) Hzero)).
    erewrite (bind_Return (Event.Fill e args)); last first.
    { apply Fill_run. simpl. by apply list_lookup_insert_eq. }
    simpl. rewrite list_insert_insert_eq.
    change (set_heap _ (set_heap _ w0)) with w1.
    rewrite (bind_Return _ _ _ _ _ Hfire).
    rewrite (bind_Return _ _ _ _ _ (reset_run e w2 _ Hev2)).
    reflexivity. }
  split; [simpl; by rewrite (d_calls _ _ _ _ Hd), <- Hcs0|].
  split; [exact Hlink|]. split; [exact Hshape|].
  assert (Hlen2 : length (heap w2) = length (heap w0)).
  { rewrite (d_length _ _ _ _ Hd). simpl. apply length_insert. }
  assert (Hother : ∀ l, l ≠ e → heap w2 !! l = heap w0 !! l).
  { intros l Hl. rewrite (d_other _ _ _ _ Hd l Hl). simpl.
    by apply list_lookup_insert_ne. }
  split; simpl; rewrite ?(d_pool _ _ _ _ Hd), ?(d_events _ _ _ _ Hd); simpl.
  - apply NoDup_cons. split; [done|apply (pool_nodup w0 Hok0)].
  - intros l [->|Hl]%elem_of_cons.
    + apply list_lookup_insert_eq. lia.
    + assert (l ≠ e) by (intros ->; done).
      rewrite list_lookup_insert_ne by done. rewrite Hother by done.
      by apply (pool_reset w0 Hok0).
  - intros n' l Hn' [->|Hl]%elem_of_cons.
    + (* the scratch event is no catalog event *)
      rewrite Hevs0 in Hn'. by apply Hcat in Hn'.
    + by apply (pool_apart w0 Hok0 n' l).
  - intros n' l Hn'. apply lookup_lt_is_Some. rewrite length_insert, Hlen2.
    apply lookup_lt_is_Some. by apply (catalog_live w0 Hok0 n').
Qed.

Lemma FireEvent_nil e w :
  heap w !! e = None → FireEvent e w = (w, Panic PanicNilDeref).
Proof.
  intros He. unfold FireEvent, Event.Name.
  apply bind_Panic, bind_Panic. unfold deref. by rewrite He.
Qed.

(** Whatever the event and the world, the calls of [FireEvent] stop at the
    first one that is not clean; there is none when it panics. *)
Lemma FireEvent_shape e w :
  ∃ cs out w',
    FireEvent e w = (w', out) ∧ calls w' = calls w ++ cs
    ∧ outcome_shape cs out.
Proof.
  destruct (heap w !! e) as [ev|] eqn:Hev.
  - destruct (FireEvent_run e w ev Hev)
      as (cs & ev' & r & w' & Hfire & Hd & _ & _ & Hshape).
    exists cs, (Return r), w'. split; [exact Hfire|]. split; [apply Hd|done].
  - exists [], (Panic PanicNilDeref), w.
    split; [by apply FireEvent_nil|]. by rewrite (right_id_L [] (++)).
Qed.

Lemma pool_Get_returns pick w :
  ∃ e w0,
    pool_Get pick w = (w0, Return e) ∧ calls w0 = calls w
    ∧ events (mgr w0) = events (mgr w).
Proof.
  unfold pool_Get, pool_New.
  destruct (pick ≫= _) as [[i e]|]; eexists _, _; done.
Qed.

(** The same for [Fire], on every name and in every world. *)
Lemma Fire_shape nm args pick w :
  ∃ cs out w',
    Fire nm args pick w = (w', out) ∧ calls w' = calls w ++ cs
    ∧ outcome_shape cs out.
Proof.
  assert (Hstop : ∀ (x : World * Outcome (option error)) w1 v,
    x = (w1, Panic v) → calls w1 = calls w →
    ∃ cs out w', x = (w', out) ∧ calls w' = calls w ++ cs
                 ∧ outcome_shape cs out).
  { intros x w1 v Hx Hc. exists [], (Panic v), w1.
    split; [exact Hx|]. by rewrite (right_id_L [] (++)). }
  destruct (goodName nm) as [n|v] eqn:Hn.
  2:{ apply (Hstop _ w v); [|done]. apply bind_Panic. unfold lift.
      by rewrite Hn. }
  unfold Fire.
  rewrite (bind_Return (lift (goodName nm)) _ w w n)
    by (unfold lift; by rewrite Hn).
  rewrite (bind_Return get_mgr _ w w (mgr w) eq_refl).
  destruct (events (mgr w) !! n) as [e|] eqn:Hcat; [apply FireEvent_shape|].
  destruct (pool_Get_returns pick w) as (e & w0 & Hget & Hc0 & _).
  rewrite (bind_Return _ _ _ _ _ Hget).
  destruct (heap w0 !! e) as [ev0|] eqn:Hev0.
  2:{ apply (Hstop _ w0 PanicNilDeref); [|done].
      apply bind_Panic. unfold Event.SetName.
      rewrite (bind_Return (lift (goodName n)) _ w0 w0 n)
        by (unfold lift; by rewrite (goodName_idem _ _ Hn)).
      apply bind_Panic. unfold deref. by rewrite Hev0. }
  assert (Hlt : (e < length (heap w0))%nat) by by eapply lookup_lt_Some.
  rewrite (bind_Return _ _ _ _ _
             (SetName_run e n w0 _ (goodName_idem _ _ Hn) Hev0)).
  erewrite (bind_Return (Event.Fill e args)); last first.
  { apply Fill_run. simpl. by apply list_lookup_insert_eq. }
  simpl. rewrite list_insert_insert_eq.
  set (w1 := set_heap _ (set_heap _ w0)).
  assert (Hev1 : heap w1 !! e = Some (mkEvent n args (e_aborted ev0))).
  { simpl. by apply list_lookup_insert_eq. }
  destruct (FireEvent_run e w1 _ Hev1)
    as (cs & ev' & r & w2 & Hfire & Hd & Hev2 & _ & Hshape).
  rewrite (bind_Return _ _ _ _ _ Hfire).
  rewrite (bind_Return _ _ _ _ _ (reset_run e w2 _ Hev2)).
  eexists cs, (Return r), _. split; [reflexivity|].
  split; [simpl; by rewrite (d_calls _ _ _ _ Hd), <- Hc0|done].
Qed.

(** A dispatch on an event that is not pooled keeps the world well
    formed. *)
Lemma dispatched_pool_ok e w w' cs :
  pool_ok w → e ∉ pool (mgr w) → dispatched e w w' cs → pool_ok w'.
Proof.
  intros Hok He Hd. destruct Hd.
  split; rewrite ?d_pool0, ?d_events0.
  - apply (pool_nodup w Hok).
  - intros l Hl. rewrite d_other0 by (intros ->; done).
    by apply (pool_reset w Hok).
  - apply (pool_apart w Hok).
  - intros n l Hn. apply lookup_lt_is_Some. rewrite d_length0.
    apply lookup_lt_is_Some. by apply (catalog_live w Hok n).
Qed.

(** [Fire] keeps the world well formed, on every path. *)
Lemma Fire_pool_ok nm args pick w :
  pool_ok w → pool_ok (after (Fire nm args pick) w).
Proof.
  intros Hok. unfold after.
  destruct (goodName nm) as [n|v] eqn:Hn.
  2:{ unfold Fire. erewrite bind_Panic; [exact Hok|].
      unfold lift. by rewrite Hn. }
  destruct (events (mgr w) !! n) as [e|] eqn:Hcat.
  - rewrite (Fire_catalog nm n args pick w e Hn Hcat).
    destruct (catalog_live w Hok n e Hcat) as [ev Hev].
    destruct (FireEvent_run e w ev Hev)
      as (cs & ev' & r & w' & -> & Hd & _).
    apply (dispatched_pool_ok e w w' cs Hok); [|done].
    by apply (pool_apart w Hok n).
  - destruct (Fire_scratch nm n args pick w Hok Hn Hcat)
      as (e & w0 & w2 & cs & ev' & r & _ & _ & _ & -> & _ & _ & _ & Hok').
    exact Hok'.
Qed.

(** [AddEvent] of a live event under its validated name. *)
Lemma AddEvent_run e w ev n :
  heap w !! e = Some ev → goodName (e_name ev) = Return n →
  AddEvent e w
  = (set_mgr (set_events (<[n := e]> (events (mgr w))) (mgr w)) w, Return tt).
Proof.
  intros Hev Hn. unfold AddEvent.
  rewrite (bind_Return _ _ _ _ _ (Name_run e w ev Hev)).
  rewrite (bind_Return (lift (goodName (e_name ev))) _ w w n)
    by (unfold lift; by rewrite Hn).
  reflexivity.
Qed.

(** ** Registration *)

Lemma On_run nm n l p w :
  goodName nm = Return n →
  On nm (Some l) p w = (set_mgr (registered n l p (mgr w)) w, Return tt).
Proof.
  intros Hn. unfold On.
  rewrite (bind_Return (lift (goodName nm)) _ w w n)
    by (unfold lift; by rewrite Hn).
  rewrite (bind_Return get_mgr _ w w (mgr w) eq_refl).
  unfold registered.
  destruct (listeners (mgr w) !! n) as [lq|] eqn:Hlq; reflexivity.
Qed.

Lemma On_nil nm n p w :
  goodName nm = Return n →
  ∃ v, On nm None p w = (w, Panic v).
Proof.
  intros Hn. unfold On.
  rewrite (bind_Return (lift (goodName nm)) _ w w n)
    by (unfold lift; by rewrite Hn).
  eexists. reflexivity.
Qed.

Lemma On_bad_name nm l p w v :
  goodName nm = Panic v → On nm l p w = (w, Panic v).
Proof.
  intros Hn. unfold On.
  apply bind_Panic. unfold lift. by rewrite Hn.
Qed.

Lemma On_tables_agree nm l p w :
  tables_agree (mgr w) → tables_agree (mgr (after (On nm l p) w)).
Proof.
  intros Hagree. unfold after.
  destruct (goodName nm) as [n|v] eqn:Hn.
  - destruct l as [l|].
    + rewrite (On_run nm n l p w Hn).
      intros k. unfold registered. simpl.
      destruct (decide (n = k)) as [->|Hne].
      * rewrite !lookup_insert_eq. split; eauto.
      * rewrite !lookup_insert_ne by done. apply Hagree.
    + destruct (On_nil nm n p w Hn) as [v ->]. exact Hagree.
  - rewrite (On_bad_name nm l p w v Hn). exact Hagree.
Qed.

Lemma ClearListeners_run nm w :
  ClearListeners nm w
  = (match listenedNames (mgr w) !! nm with
     | Some _ =>
         set_mgr (set_listeners (delete nm (listeners (mgr w)))
                    (set_listenedNames (delete nm (listenedNames (mgr w)))
                       (mgr w))) w
     | None => w
     end, Return tt).
Proof.
  unfold ClearListeners.
  rewrite (bind_Return get_mgr _ w w (mgr w) eq_refl).
  destruct (listenedNames (mgr w) !! nm); reflexivity.
Qed.

Lemma ClearListeners_tables_agree nm w :
  tables_agree (mgr w) → tables_agree (mgr (after (ClearListeners nm) w)).
Proof.
  intros Hagree. unfold after. rewrite ClearListeners_run.
  destruct (listenedNames (mgr w) !! nm) eqn:Hnm; [|exact Hagree].
  intros k. simpl. destruct (decide (nm = k)) as [->|Hne].
  - rewrite !lookup_delete_eq. split; intros [? [=]].
  - rewrite !lookup_delete_ne by done. apply Hagree.
Qed.

Lemma run_ops_tables_agree os : ∀ w,
  tables_agree (mgr w) → tables_agree (mgr (run_ops os w)).
Proof.
  induction os as [|o os IH]; intros w Hagree; simpl; [done|].
  apply IH. destruct o as [nm l p|nm|]; simpl.
  - by apply On_tables_agree.
  - by apply ClearListeners_tables_agree.
  - intros k. simpl.
    rewrite !lookup_empty. split; intros [? [=]].
Qed.

(** Methods that leave the objects and the pool alone and add nothing to
    the catalog keep the world well formed. *)
Lemma pool_ok_frame w w' :
  pool_ok w → heap w' = heap w → pool (mgr w') = pool (mgr w) →
  events (mgr w') ⊆ events (mgr w) → pool_ok w'.
Proof.
  intros Hok Hh Hp He. split; rewrite ?Hh, ?Hp.
  - apply (pool_nodup w Hok).
  - apply (pool_reset w Hok).
  - intros n l Hn. apply (pool_apart w Hok n).
    by eapply lookup_weaken.
  - intros n l Hn. apply (catalog_live w Hok n).
    by eapply lookup_weaken.
Qed.

Lemma goodName_cases nm :
  (∃ n, goodName nm = Return n) ∨ (∃ v, goodName nm = Panic v).
Proof. destruct (goodName nm); eauto. Qed.

Lemma On_pool_ok nm l p w :
  pool_ok w → pool_ok (after (On nm l p) w).
Proof.
  intros Hok. apply (pool_ok_frame w); [done|..]; unfold after, On;
    destruct (goodName nm) as [n|v]; simpl; try done;
    destruct l as [l|]; simpl; try done;
    unfold mbind, Go_bind; simpl;
    destruct (listeners (mgr w) !! n); done.
Qed.


Lemma Clear_pool_ok w : pool_ok w → pool_ok (after Clear w).
Proof.
  intros Hok. apply (pool_ok_frame w); [done..|]. simpl.
  apply map_empty_subseteq.
Qed.

Lemma DelEvent_pool_ok nm w :
  pool_ok w → pool_ok (after (DelEvent nm) w).
Proof.
  intros Hok. unfold after, DelEvent.
  rewrite (bind_Return get_mgr _ w w (mgr w) eq_refl).
  destruct (events (mgr w) !! nm); [|done].
  apply (pool_ok_frame w); [done..|]. simpl. apply delete_subseteq.
Qed.

(** Adding to the catalog a live event that is not a pooled object keeps
    the world well formed. *)
Lemma AddEvent_pool_ok e w :
  pool_ok w → is_Some (heap w !! e) → e ∉ pool (mgr w) →
  pool_ok (after (AddEvent e) w).
Proof.
  intros Hok [ev Hev] He. unfold after.
  destruct (goodName (e_name ev)) as [n|v] eqn:Hn.
  2:{ unfold AddEvent.
      rewrite (bind_Return _ _ _ _ _ (Name_run e w ev Hev)).
      erewrite bind_Panic; [exact Hok|]. unfold lift. by rewrite Hn. }
  rewrite (AddEvent_run e w ev n Hev Hn).
  split; simpl.
  - apply (pool_nodup w Hok).
  - apply (pool_reset w Hok).
  - intros k l [[<- <-]|[_ Hk]]%lookup_insert_Some; [done|].
    by apply (pool_apart w Hok k).
  - intros k l [[<- <-]|[_ Hk]]%lookup_insert_Some; [eauto|].
    by apply (catalog_live w Hok k).
Qed.


(** [FireEvent] on an event whose own name has no queue returns nil at
    once: nothing is called and nothing changes, whatever is registered
    under other names. *)
Lemma FireEvent_no_exact_queue e w ev :
  heap w !! e = Some ev → listeners (mgr w) !! e_name ev = None →
  FireEvent e w = (w, Return None).
Proof.
  intros Hev Hq. unfold FireEvent.
  rewrite (bind_Return _ _ _ _ _ (Name_run e w ev Hev)).
  rewrite (bind_Return get_mgr _ w w (mgr w) eq_refl).
  by rewrite Hq.
Qed.

(** ** The claims *)

(** C1 (the code departs from the claim). With listeners under
    ["app.run"], ["app.*"] and ["app*"], firing ["app.run"] calls the
    exact-name listener and then the one under ["app*"]: the group key is
    cut before the last dot, so the dot is lost and the listener under
    ["app.*"] is never called. The same holds for ["app.user.created"]
    and ["app.user.*"]. *)
Theorem FireEvent_group_key_loses_dot :
  Str.slice_to "app.run" (Str.LastIndexByte "app.run" ".") +:+ Wildcard
    = "app*"
  ∧ result (FireEvent 0%nat) w_group = Return None
  ∧ lids (calls (after (FireEvent 0%nat) w_group)) = [1; 3]%nat
  ∧ Str.slice_to "app.user.created"
      (Str.LastIndexByte "app.user.created" ".") +:+ Wildcard = "app.user*"
  ∧ result (FireEvent 0%nat) w_group2 = Return None
  ∧ lids (calls (after (FireEvent 0%nat) w_group2)) = [1]%nat
  ∧ result (Fire "app.run" ∅ None) w_group = Return None
  ∧ lids (calls (after (Fire "app.run" ∅ None) w_group)) = [1; 3]%nat.
Proof. repeat split; vm_compute; reflexivity. Qed.

(** C2 (the code departs from the claim). With listeners under ["app.*"]
    and ["app*"] but none under ["app.run"], firing ["app.run"] returns
    nil without calling anyone; and in a manager that holds a queue under
    ["*"], firing ["evt"] calls no one either: [FireEvent] returns as
    soon as the exact name has no queue. Registering ["*"] through [On]
    panics. [Fire] of ["app.run"] behaves as [FireEvent] does. *)
Theorem FireEvent_stops_without_exact_queue :
  FireEvent 0%nat w_no_exact = (w_no_exact, Return None)
  ∧ calls w_no_exact = []
  ∧ FireEvent 0%nat w_star = (w_star, Return None)
  ∧ calls w_star = []
  ∧ (∃ v, On "*" (Some (L_ok 4)) 0 (new_world "app")
          = (new_world "app", Panic v))
  ∧ result (Fire "app.run" ∅ None) w_no_exact = Return None
  ∧ calls (after (Fire "app.run" ∅ None) w_no_exact) = [].
Proof.
  split.
  { by apply (FireEvent_no_exact_queue _ _ (mkEvent "app.run" ∅ false)). }
  split; [reflexivity|].
  split.
  { by apply (FireEvent_no_exact_queue _ _ (mkEvent "evt" ∅ false)). }
  split; [reflexivity|].
  split; [eexists; vm_compute; reflexivity|].
  split; vm_compute; reflexivity.
Qed.

(** C3. Whatever the event, the name and the world: if one of the calls
    made by [FireEvent], or by [Fire], returned the error [err], that call
    is the last one made (no listener of the same or of a later group is
    called after it) and the method returns [err]. *)
Theorem error_stops_dispatch e nm args pick w :
  (∃ cs out w',
     FireEvent e w = (w', out) ∧ calls w' = calls w ++ cs
     ∧ ∀ pre c post err,
         cs = pre ++ c :: post → call_err c = Some err →
         post = [] ∧ out = Return (Some err))
  ∧ (∃ cs out w',
       Fire nm args pick w = (w', out) ∧ calls w' = calls w ++ cs
       ∧ ∀ pre c post err,
           cs = pre ++ c :: post → call_err c = Some err →
           post = [] ∧ out = Return (Some err)).
Proof.
  assert (Hlast : ∀ cs out pre c post err,
    outcome_shape cs out → cs = pre ++ c :: post → call_err c = Some err →
    post = [] ∧ out = Return (Some err)).
  { intros cs [r|v] pre c post err Hshape Hcs Herr; simpl in Hshape.
    - destruct (stop_shape_last cs r pre c post Hshape Hcs) as [-> ->].
      + intros [Hc _]. congruence.
      + by rewrite Herr.
    - subst cs. by destruct pre. }
  split.
  - destruct (FireEvent_shape e w) as (cs & out & w' & Hfire & Hc & Hshape).
    exists cs, out, w'. split; [exact Hfire|]. split; [exact Hc|].
    intros pre c post err. by apply Hlast.
  - destruct (Fire_shape nm args pick w)
      as (cs & out & w' & Hfire & Hc & Hshape).
    exists cs, out, w'. split; [exact Hfire|]. split; [exact Hc|].
    intros pre c post err. by apply Hlast.
Qed.

Lemma error_stops_dispatch_witness :
  ∃ c,
    calls (after (FireEvent 0%nat) w_fail) = calls w_fail ++ [] ++ c :: []
    ∧ call_err c = Some "boom"
    ∧ result (FireEvent 0%nat) w_fail = Return (Some "boom").
Proof.
  destruct (error_stops_dispatch 0%nat "app.end" ∅ None w_fail)
    as [(cs & out & w' & Hfire & Hc & Hall) _].
  assert (Hw : w' = after (FireEvent 0%nat) w_fail)
    by (unfold after; by rewrite Hfire).
  assert (Hout : out = result (FireEvent 0%nat) w_fail)
    by (unfold result; by rewrite Hfire).
  subst w' out.
  exists (call_of (mkItem 10 (L_fail 1 "boom")) (mkEvent "app.run" ∅ false)).
  vm_compute in Hc. subst cs.
  split; [reflexivity|]. split; [reflexivity|].
  apply (Hall [] (call_of (mkItem 10 (L_fail 1 "boom"))
                           (mkEvent "app.run" ∅ false)) [] "boom");
    reflexivity.
Defined.

(** A run, computed: the failing listener of highest priority is called
    first and is the only one called. *)
Example w_fail_FireEvent :
  result (FireEvent 0%nat) w_fail = Return (Some "boom")
  ∧ lids (calls (after (FireEvent 0%nat) w_fail)) = [1]%nat
  ∧ result (Fire " app.end " ∅ None) w_fail = Return (Some "halt")
  ∧ lids (calls (after (Fire " app.end " ∅ None) w_fail)) = [4]%nat.
Proof. repeat split; vm_compute; reflexivity. Qed.

(** C4. Whatever the event, the name and the world: if one of the calls
    made by [FireEvent], or by [Fire], returned nil and left the event
    aborted, that call is the last one made and the method returns nil. *)
Theorem abort_stops_dispatch e nm args pick w :
  (∃ cs out w',
     FireEvent e w = (w', out) ∧ calls w' = calls w ++ cs
     ∧ ∀ pre c post,
         cs = pre ++ c :: post → call_err c = None →
         e_aborted (call_left c) = true →
         post = [] ∧ out = Return None)
  ∧ (∃ cs out w',
       Fire nm args pick w = (w', out) ∧ calls w' = calls w ++ cs
       ∧ ∀ pre c post,
           cs = pre ++ c :: post → call_err c = None →
           e_aborted (call_left c) = true →
           post = [] ∧ out = Return None).
Proof.
  assert (Hlast : ∀ cs out pre c post,
    outcome_shape cs out → cs = pre ++ c :: post → call_err c = None →
    e_aborted (call_left c) = true →
    post = [] ∧ out = Return None).
  { intros cs [r|v] pre c post Hshape Hcs Herr Hab; simpl in Hshape.
    - destruct (stop_shape_last cs r pre c post Hshape Hcs) as [-> ->].
      + intros [_ Hc]. congruence.
      + by rewrite Herr.
    - subst cs. by destruct pre. }
  split.
  - destruct (FireEvent_shape e w) as (cs & out & w' & Hfire & Hc & Hshape).
    exists cs, out, w'. split; [exact Hfire|]. split; [exact Hc|].
    intros pre c post. by apply Hlast.
  - destruct (Fire_shape nm args pick w)
      as (cs & out & w' & Hfire & Hc & Hshape).
    exists cs, out, w'. split; [exact Hfire|]. split; [exact Hc|].
    intros pre c post. by apply Hlast.
Qed.

Lemma abort_stops_dispatch_witness :
  ∃ c,
    calls (after (FireEvent 0%nat) w_abort) = calls w_abort ++ [] ++ c :: []
    ∧ call_err c = None
    ∧ e_aborted (call_left c) = true
    ∧ result (FireEvent 0%nat) w_abort = Return None.
Proof.
  destruct (abort_stops_dispatch 0%nat "app.end" ∅ None w_abort)
    as [(cs & out & w' & Hfire & Hc & Hall) _].
  assert (Hw : w' = after (FireEvent 0%nat) w_abort)
    by (unfold after; by rewrite Hfire).
  assert (Hout : out = result (FireEvent 0%nat) w_abort)
    by (unfold result; by rewrite Hfire).
  subst w' out.
  exists (call_of (mkItem 10 (L_abort 1)) (mkEvent "app.run" ∅ false)).
  vm_compute in Hc. subst cs.
  split; [reflexivity|]. split; [reflexivity|]. split; [reflexivity|].
  apply (Hall [] (call_of (mkItem 10 (L_abort 1))
                           (mkEvent "app.run" ∅ false)) []);
    reflexivity.
Defined.

(** A run, computed: the aborting listener is the only one called and nil
    is returned. *)
Example w_abort_FireEvent :
  result (FireEvent 0%nat) w_abort = Return None
  ∧ lids (calls (after (FireEvent 0%nat) w_abort)) = [1]%nat
  ∧ result (Fire "app.end" ∅ None) w_abort = Return None
  ∧ lids (calls (after (Fire "app.end" ∅ None) w_abort)) = [4]%nat.
Proof. repeat split; vm_compute; reflexivity. Qed.

Lemma pool_ok_no_catalog w :
  events (mgr w) = ∅ → NoDup (pool (mgr w)) →
  Forall (λ l, heap w !! l = Some zero_event) (pool (mgr w)) →
  pool_ok w.
Proof.
  intros He Hnd Hall. split; rewrite ?He.
  - exact Hnd.
  - intros l Hl. by apply (proj1 (Forall_forall _ _) Hall).
  - intros n l Hn. by rewrite lookup_empty in Hn.
  - intros n l Hn. by rewrite lookup_empty in Hn.
Qed.

(** C5. In a well-formed world [Fire] leaves the world well formed on every
    path: every pooled object is in its zero state. On a valid name without
    catalog event it takes a scratch event [e] out of the pool, gives it
    the name and the payload, dispatches it through [FireEvent] and,
    whatever [FireEvent] returned, resets it and puts it back: [e] is
    pooled and in its zero state afterwards. The first listener called
    sees exactly the given name and payload and no abort, whatever earlier
    fires left behind. *)
Theorem Fire_scratch_event_recycled nm args pick w :
  pool_ok w →
  pool_ok (after (Fire nm args pick) w)
  ∧ ∀ n, goodName nm = Return n → events (mgr w) !! n = None →
    ∃ e w0 w2 r,
      pool_Get pick w = (w0, Return e)
      ∧ heap w0 !! e = Some zero_event
      ∧ FireEvent e (filled e n args w0) = (w2, Return r)
      ∧ Fire nm args pick w = (released e w2, Return r)
      ∧ heap (released e w2) !! e = Some zero_event
      ∧ e ∈ pool (mgr (released e w2))
      ∧ ∀ c cs, calls (released e w2) = calls w ++ c :: cs →
                call_seen c = mkEvent n args false.
Proof.
  intros Hok. split; [by apply Fire_pool_ok|]. intros n Hn Hnone.
  destruct (Fire_scratch nm n args pick w Hok Hn Hnone)
    as (e & w0 & w2 & cs & ev' & r & Hget & Hzero & Hfire & HFire & Hcs
        & Hlink & _ & Hok').
  exists e, w0, w2, r.
  split; [exact Hget|]. split; [exact Hzero|]. split; [exact Hfire|].
  split; [exact HFire|].
  assert (Hin : e ∈ pool (mgr (released e w2))) by (simpl; left).
  split; [by apply (pool_reset _ Hok')|]. split; [exact Hin|].
  intros c cs' Hc. rewrite Hcs in Hc. apply app_inv_head in Hc. subst cs.
  by inversion Hlink.
Qed.

Lemma Fire_scratch_event_recycled_witness :
  pool_ok w_used
  ∧ goodName "e2" = Return "e2"
  ∧ events (mgr w_used) !! "e2" = None
  ∧ pool_ok (after (Fire "e2" ∅ (Some 0%nat)) w_used)
  ∧ ∃ e w0 w2 r,
      pool_Get (Some 0%nat) w_used = (w0, Return e)
      ∧ heap w0 !! e = Some zero_event
      ∧ FireEvent e (filled e "e2" ∅ w0) = (w2, Return r)
      ∧ Fire "e2" ∅ (Some 0%nat) w_used = (released e w2, Return r)
      ∧ heap (released e w2) !! e = Some zero_event
      ∧ e ∈ pool (mgr (released e w2))
      ∧ ∀ c cs, calls (released e w2) = calls w_used ++ c :: cs →
                call_seen c = mkEvent "e2" ∅ false.
Proof.
  assert (Hok : pool_ok w_used).
  { apply pool_ok_no_catalog.
    - reflexivity.
    - vm_compute. apply NoDup_singleton.
    - vm_compute. repeat constructor. }
  split; [exact Hok|]. split; [reflexivity|]. split; [reflexivity|].
  destruct (Fire_scratch_event_recycled "e2" ∅ (Some 0%nat) w_used Hok)
    as [Hok' Hrun].
  split; [exact Hok'|]. apply (Hrun "e2"); reflexivity.
Defined.

(** Two fires, computed: the first fire of ["e"] carries ["k"], its
    listeners add ["a"] and abort; the second fire, of ["e2"] with no
    payload, reuses the same object and its listener sees an empty payload
    and no abort. *)
Example w_used_second_fire :
  pool (mgr w_used) = [0%nat]
  ∧ heap w_used = [zero_event]
  ∧ lids (calls w_used) = [1; 2]%nat
  ∧ call_seen <$> calls (after (Fire "e2" ∅ (Some 0%nat)) w_used) !! 2%nat
    = Some (mkEvent "e2" ∅ false)
  ∧ pool (mgr (after (Fire "e2" ∅ (Some 0%nat)) w_used)) = [0%nat]
  ∧ heap (after (Fire "e2" ∅ (Some 0%nat)) w_used) = [zero_event].
Proof. repeat split; vm_compute; reflexivity. Qed.




(** Two fires of a catalog event, computed: the listener sees the stored
    payload ["x"], not the argument ["y"]; what it sets stays in the
    catalog event and is seen again by the next fire. *)
Example w_catalog_fire_twice :
  call_seen <$> calls (after (Fire "e1" {[ "y" := VBool true ]} None)
                             w_catalog) !! 0%nat
    = Some (mkEvent "e1" {[ "x" := VInt 7 ]} false)
  ∧ call_seen <$> calls (after (Fire "e1" ∅ None;; Fire "e1" ∅ None)
                               w_catalog) !! 1%nat
    = Some (mkEvent "e1" (<[ "a" := VInt 1 ]> {[ "x" := VInt 7 ]}) false)
  ∧ pool (mgr (after (Fire "e1" ∅ None) w_catalog)) = [].
Proof. repeat split; vm_compute; reflexivity. Qed.

(** C7, as stated, fails: the name [" app"] is neither empty nor made of
    white space and does not match the pattern (it starts with a space),
    yet [On] does not panic: it registers the listener under the trimmed
    name ["app"]. *)
Lemma On_accepts_untrimmed_name :
  " app" ≠ ""
  ∧ Str.TrimSpace " app" ≠ ""
  ∧ Str.goodNameReg_MatchString " app" = false
  ∧ result (On " app" (Some (L_ok 1)) 0) (new_world "app") = Return tt
  ∧ listeners (mgr (after (On " app" (Some (L_ok 1)) 0) (new_world "app")))
      !! "app" = Some [mkItem 0 (L_ok 1)]
  ∧ listeners (mgr (after (On " app" (Some (L_ok 1)) 0) (new_world "app")))
      !! " app" = None.
Proof. repeat split; vm_compute; (reflexivity || discriminate). Qed.

(** C7, amended. Let [n] be the name with the white space around it
    trimmed. [On] panics, leaving the world as it was, when [n] is empty,
    when [n] does not match the pattern or when the listener is nil.
    Otherwise it returns, and the item is appended to the queue under [n]:
    on the first registration under [n] the queue is created with this one
    item and [listenedNames[n]] is set to 1; nothing else changes. *)
Theorem On_registers_under_trimmed_name nm listener p w :
  (Str.TrimSpace nm = ""
   ∨ Str.goodNameReg_MatchString (Str.TrimSpace nm) = false
   ∨ listener = None →
   ∃ v, On nm listener p w = (w, Panic v))
  ∧ (∀ l, Str.TrimSpace nm ≠ "" →
          Str.goodNameReg_MatchString (Str.TrimSpace nm) = true →
          listener = Some l →
          ∃ w',
            On nm listener p w = (w', Return tt)
            ∧ heap w' = heap w ∧ calls w' = calls w
            ∧ name (mgr w') = name (mgr w) ∧ pool (mgr w') = pool (mgr w)
            ∧ events (mgr w') = events (mgr w)
            ∧ listeners (mgr w')
              = <[Str.TrimSpace nm :=
                    default [] (listeners (mgr w) !! Str.TrimSpace nm)
                    ++ [mkItem p l]]> (listeners (mgr w))
            ∧ (listeners (mgr w) !! Str.TrimSpace nm = None →
               listeners (mgr w') !! Str.TrimSpace nm = Some [mkItem p l]
               ∧ listenedNames (mgr w')
                 = <[Str.TrimSpace nm := 1]> (listenedNames (mgr w)))
            ∧ (is_Some (listeners (mgr w) !! Str.TrimSpace nm) →
               listenedNames (mgr w')
               = <[Str.TrimSpace nm :=
                     wrap64 (default 0 (listenedNames (mgr w)
                                        !! Str.TrimSpace nm) + 1)]>
                   (listenedNames (mgr w)))).
Proof.
  split.
  - intros Hbad.
    destruct (goodName nm) as [n|v] eqn:Hn.
    + apply goodName_Return in Hn as (-> & Hne & Hm).
      destruct Hbad as [He | [Hbad | ->]]; [done|congruence|].
      apply On_nil with (Str.TrimSpace nm).
      by apply goodName_Return.
    + exists v. by apply On_bad_name.
  - intros l Hne Hm ->.
    assert (Hn : goodName nm = Return (Str.TrimSpace nm))
      by by apply goodName_Return.
    eexists. split; [by apply On_run|].
    simpl. repeat (split; [reflexivity|]). split.
    + intros Hq. rewrite Hq. by rewrite lookup_insert_eq.
    + intros [lq Hq]. by rewrite Hq.
Qed.

Lemma On_registers_under_trimmed_name_witness :
  (∃ v, On "1st" (Some (L_ok 1)) 0 (new_world "app")
        = (new_world "app", Panic v))
  ∧ (∃ v, On "   " (Some (L_ok 1)) 0 (new_world "app")
          = (new_world "app", Panic v))
  ∧ (∃ v, On "app.run" None 0 (new_world "app")
          = (new_world "app", Panic v))
  ∧ ∃ w',
      On " app.run " (Some (L_ok 1)) 5 (new_world "app") = (w', Return tt)
      ∧ listeners (mgr w') !! "app.run" = Some [mkItem 5 (L_ok 1)]
      ∧ listenedNames (mgr w') = {[ "app.run" := 1 ]}.
Proof.
  split.
  { apply (On_registers_under_trimmed_name "1st" (Some (L_ok 1)) 0
             (new_world "app")).
    right. left. reflexivity. }
  split.
  { apply (On_registers_under_trimmed_name "   " (Some (L_ok 1)) 0
             (new_world "app")).
    left. reflexivity. }
  split.
  { apply (On_registers_under_trimmed_name "app.run" None 0
             (new_world "app")).
    right. right. reflexivity. }
  destruct (proj2 (On_registers_under_trimmed_name " app.run "
                     (Some (L_ok 1)) 5 (new_world "app")) (L_ok 1))
    as (w' & HOn & _ & _ & _ & _ & _ & _ & Hfirst & _).
  - discriminate.
  - reflexivity.
  - reflexivity.
  - exists w'. split; [exact HOn|]. apply Hfirst. reflexivity.
Defined.

(** C8. After any sequence of [On], [ClearListeners] and [Clear] on a new
    manager, [listenedNames] and [listeners] hold the same names. For any
    name, [ClearListeners] leaves neither a count nor a queue under it, so
    [HasListeners] is false afterwards; on a name without count it changes
    nothing. *)
Theorem listener_tables_agree (os : list Op) (nm n : string) :
  let w := run_ops os (new_world nm) in
  (∀ k, is_Some (listenedNames (mgr w) !! k)
        ↔ is_Some (listeners (mgr w) !! k))
  ∧ listenedNames (mgr (after (ClearListeners n) w)) !! n = None
  ∧ listeners (mgr (after (ClearListeners n) w)) !! n = None
  ∧ HasListeners n (after (ClearListeners n) w)
    = (after (ClearListeners n) w, Return false)
  ∧ (listenedNames (mgr w) !! n = None →
     ClearListeners n w = (w, Return tt)).
Proof.
  intros w.
  assert (Hagree : tables_agree (mgr w)).
  { apply run_ops_tables_agree. intros k. simpl. rewrite !lookup_empty.
    split; intros [? [=]]. }
  assert (Hnone : listenedNames (mgr (after (ClearListeners n) w)) !! n
                  = None).
  { unfold after. rewrite ClearListeners_run. simpl.
    destruct (listenedNames (mgr w) !! n) eqn:Hn; simpl; [|done].
    apply lookup_delete_eq. }
  split; [exact Hagree|]. split; [exact Hnone|]. split; [|split].
  - pose proof (ClearListeners_tables_agree n w Hagree n) as Hiff.
    rewrite Hnone in Hiff.
    destruct (listeners (mgr (after (ClearListeners n) w)) !! n)
      as [lq|]; [|done].
    destruct (proj2 Hiff (ltac:(eauto))) as [? [=]].
  - unfold HasListeners.
    rewrite (bind_Return get_mgr _ _ _ _ eq_refl). by rewrite Hnone.
  - intros Hn. rewrite ClearListeners_run. by rewrite Hn.
Qed.

Lemma listener_tables_agree_witness :
  listenedNames
    (mgr (run_ops [OpOn "a" (Some (L_ok 1)) 0; OpOn "b" (Some (L_ok 2)) 0;
                   OpClearListeners "a"] (new_world "app"))) !! "a" = None
  ∧ ClearListeners "a"
      (run_ops [OpOn "a" (Some (L_ok 1)) 0; OpOn "b" (Some (L_ok 2)) 0;
                OpClearListeners "a"] (new_world "app"))
    = (run_ops [OpOn "a" (Some (L_ok 1)) 0; OpOn "b" (Some (L_ok 2)) 0;
                OpClearListeners "a"] (new_world "app"), Return tt).
Proof.
  split; [reflexivity|].
  apply (listener_tables_agree
           [OpOn "a" (Some (L_ok 1)) 0; OpOn "b" (Some (L_ok 2)) 0;
            OpClearListeners "a"] "app" "a").
  reflexivity.
Defined.



(** C10. On every name and in every world the lookup and cleanup methods
    return (none of them validates the name). On a name without count
    [HasListeners] is false and [ClearListeners] changes nothing; on a name
    without catalog event [HasEvent] is false, [GetEvent] finds nothing and
    [DelEvent] changes nothing. *)
Theorem lookups_never_panic nm w :
  (∃ b, HasListeners nm w = (w, Return b))
  ∧ (∃ w', ClearListeners nm w = (w', Return tt))
  ∧ (∃ o, GetEvent nm w = (w, Return o))
  ∧ (∃ b, HasEvent nm w = (w, Return b))
  ∧ (∃ w', DelEvent nm w = (w', Return tt))
  ∧ (listenedNames (mgr w) !! nm = None →
     HasListeners nm w = (w, Return false)
     ∧ ClearListeners nm w = (w, Return tt))
  ∧ (events (mgr w) !! nm = None →
     HasEvent nm w = (w, Return false)
     ∧ GetEvent nm w = (w, Return None)
     ∧ DelEvent nm w = (w, Return tt)).
Proof.
  unfold HasListeners, GetEvent, HasEvent, DelEvent.
  rewrite !(bind_Return get_mgr _ w w (mgr w) eq_refl).
  rewrite ClearListeners_run.
  split; [eexists; reflexivity|]. split; [eexists; reflexivity|].
  split; [eexists; reflexivity|]. split; [eexists; reflexivity|].
  split; [destruct (events (mgr w) !! nm); eexists; reflexivity|].
  split.
  - intros Hn. rewrite Hn. done.
  - intros Hn. rewrite Hn. done.
Qed.

Lemma lookups_never_panic_witness :
  listenedNames (mgr w_group) !! "" = None
  ∧ events (mgr w_group) !! "" = None
  ∧ HasListeners "" w_group = (w_group, Return false)
  ∧ ClearListeners "" w_group = (w_group, Return tt)
  ∧ HasEvent "" w_group = (w_group, Return false)
  ∧ GetEvent "" w_group = (w_group, Return None)
  ∧ DelEvent "" w_group = (w_group, Return tt).
Proof.
  destruct (lookups_never_panic "" w_group)
    as (_ & _ & _ & _ & _ & Hl & He).
  split; [reflexivity|]. split; [reflexivity|].
  destruct (Hl eq_refl) as [H1 H2]. destruct (He eq_refl) as (H3 & H4 & H5).
  split; [exact H1|]. split; [exact H2|]. split; [exact H3|].
  split; [exact H4|exact H5].
Defined.

(** ** Further properties of manager.go *)

(** *** The group name *)

Lemma app_cons a p q : String a p +:+ q = String a (p +:+ q).
Proof. reflexivity. Qed.

Lemma app_empty q : "" +:+ q = q.
Proof. reflexivity. Qed.

Lemma len_cons a s : Str.len (String a s) = Str.len s + 1.
Proof. unfold Str.len. simpl. lia. Qed.

Lemma len_nonneg s : 0 <= Str.len s.
Proof. unfold Str.len. lia. Qed.

Lemma len_app p q : Str.len (p +:+ q) = Str.len p + Str.len q.
Proof.
  induction p as [|a p IH]; [rewrite app_empty; unfold Str.len; simpl; lia|].
  rewrite app_cons, !len_cons, IH. lia.
Qed.

Lemma LastIndexByte_bounds s c :
  -1 <= Str.LastIndexByte s c < Str.len s.
Proof.
  induction s as [|a s IH]; [unfold Str.len; simpl; lia|].
  rewrite len_cons. simpl.
  destruct (Z.leb_spec 0 (Str.LastIndexByte s c)); [lia|].
  pose proof (len_nonneg s). destruct (Ascii.eqb a c); lia.
Qed.

Lemma LastIndexByte_no_byte s c :
  no_byte c s = true → Str.LastIndexByte s c = -1.
Proof.
  induction s as [|a s IH]; [done|]. simpl.
  intros [Ha Hs]%andb_true_iff. rewrite (IH Hs). simpl.
  by destruct (Ascii.eqb a c).
Qed.

Lemma LastIndexByte_app_dot p s c :
  no_byte c s = true →
  Str.LastIndexByte (p +:+ String c s) c = Str.len p.
Proof.
  intros Hs. induction p as [|a p IH].
  - rewrite app_empty. simpl. rewrite (LastIndexByte_no_byte s c Hs). simpl.
    by rewrite Ascii.eqb_refl.
  - rewrite app_cons, len_cons. simpl. rewrite IH.
    pose proof (len_nonneg p).
    destruct (Z.leb_spec 0 (Str.len p)); [done|lia].
Qed.

(** A string in which [c] occurs splits at the last [c]. *)
Lemma LastIndexByte_split s c :
  0 <= Str.LastIndexByte s c →
  ∃ p r, s = p +:+ String c r ∧ no_byte c r = true
         ∧ Str.len p = Str.LastIndexByte s c.
Proof.
  induction s as [|a s IH]; [simpl; lia|]. simpl.
  destruct (Z.leb_spec 0 (Str.LastIndexByte s c)) as [Hge|Hlt].
  - intros _. destruct (IH Hge) as (p & r & -> & Hr & Hp).
    exists (String a p), r. rewrite app_cons, len_cons. by rewrite Hp.
  - destruct (Ascii.eqb_spec a c) as [->|Hne]; [|lia]. intros _.
    exists "", s. rewrite app_empty. split; [done|]. split; [|done].
    pose proof (LastIndexByte_bounds s c) as Hb.
    assert (Hm : Str.LastIndexByte s c = -1) by lia.
    clear -Hm. induction s as [|b s IH]; [done|]. simpl in *.
    destruct (Z.leb_spec 0 (Str.LastIndexByte s c)); [lia|].
    destruct (Ascii.eqb b c); [lia|]. simpl. apply IH.
    pose proof (LastIndexByte_bounds s c). lia.
Qed.

Lemma slice_to_app p q : Str.slice_to (p +:+ q) (Str.len p) = p.
Proof.
  unfold Str.slice_to, Str.len. rewrite Nat2Z.id.
  induction p as [|a p IH].
  - rewrite app_empty. by destruct q.
  - rewrite app_cons. simpl. by rewrite IH.
Qed.

Lemma groupName_dotted p s :
  no_byte "." s = true →
  groupName (p +:+ String "." s)
  = if decide (p = "") then None else Some (p +:+ Wildcard).
Proof.
  intros Hs. unfold groupName.
  rewrite (LastIndexByte_app_dot p s "." Hs), len_app, len_cons.
  pose proof (len_nonneg s).
  case_decide as Hp.
  - subst p. reflexivity.
  - assert (0 < Str.len p).
    { destruct p; [done|]. rewrite len_cons. pose proof (len_nonneg p). lia. }
    destruct (Z.ltb_spec 0 (Str.len p)); [|lia].
    destruct (Z.ltb_spec (Str.len p) (Str.len p + (Str.len s + 1))); [|lia].
    simpl. by rewrite slice_to_app.
Qed.

Lemma groupName_Some name g :
  groupName name = Some g →
  ∃ p s, name = p +:+ String "." s ∧ no_byte "." s = true ∧ p ≠ ""
         ∧ g = p +:+ Wildcard.
Proof.
  intros Hg.
  assert (Hpos : 0 <= Str.LastIndexByte name ".").
  { unfold groupName in Hg.
    destruct (Z.ltb_spec 0 (Str.LastIndexByte name ".")); [lia|done]. }
  destruct (LastIndexByte_split name "." Hpos) as (p & s & -> & Hs & _).
  rewrite (groupName_dotted p s Hs) in Hg. case_decide; [done|].
  injection Hg as <-. by exists p, s.
Qed.

Lemma app_wildcard_neq p s : p +:+ Wildcard ≠ p +:+ String "." s.
Proof.
  induction p as [|a p IH]; rewrite ?app_empty, ?app_cons; [done|].
  intros [= H]. by apply IH.
Qed.

Lemma groupName_fresh name g :
  groupName name = Some g → g ≠ name ∧ g ≠ Wildcard.
Proof.
  intros (p & s & -> & _ & Hp & ->)%groupName_Some. split.
  - apply app_wildcard_neq.
  - destruct p as [|a [|b p]]; done.
Qed.

(** X16. The group name, for every name. A name without dot has none. A
    name [p.s] whose last dot is the one shown has the group name [p*],
    without the dot, unless [p] is empty, when it has none. The group name
    is never the name itself, the bare wildcard or the dotted pattern
    [p.*]. *)
Theorem groupName_by_last_dot (name : string) :
  (no_byte "." name = true ∧ groupName name = None)
  ∨ (∃ p s,
       name = p +:+ String "." s ∧ no_byte "." s = true
       ∧ groupName name
         = (if decide (p = "") then None else Some (p +:+ Wildcard))
       ∧ groupName name ≠ Some name
       ∧ groupName name ≠ Some Wildcard
       ∧ groupName name ≠ Some (p +:+ ".*")).
Proof.
  destruct (Z.leb_spec 0 (Str.LastIndexByte name ".")) as [Hge|Hlt].
  - right. destruct (LastIndexByte_split name "." Hge)
      as (p & s & -> & Hs & _).
    exists p, s. split; [done|]. split; [done|].
    split; [by apply groupName_dotted|].
    split; [intros Hg; by apply groupName_fresh in Hg as [? _]|].
    split; [intros Hg; by apply groupName_fresh in Hg as [_ ?]|].
    rewrite (groupName_dotted p s Hs). case_decide; [done|].
    intros [= Hg]. by apply app_wildcard_neq in Hg.
  - left. split.
    + clear -Hlt. induction name as [|a s IH]; [done|]. simpl in *.
      destruct (Z.leb_spec 0 (Str.LastIndexByte s ".")); [lia|].
      destruct (Ascii.eqb a "."); [lia|]. simpl. by apply IH.
    + unfold groupName.
      destruct (Z.ltb_spec 0 (Str.LastIndexByte name ".")); [lia|done].
Qed.

(** *** The order of dispatch *)

Lemma chain_app_stop l1 l2 ev cs ev' err :
  chain l1 ev cs ev' (Returned err) →
  chain (l1 ++ l2) ev cs ev' (Returned err).
Proof.
  intros H. remember (Returned err) as x eqn:Hx.
  induction H as [ev|li rest ev Hc|li rest ev cs ev' x Hc _ IH]; simpl.
  - discriminate.
  - by apply chain_stop.
  - apply chain_go; [done|]. by apply IH.
Qed.

Lemma chain_app_go l1 l2 ev cs1 ev1 cs2 ev2 x :
  chain l1 ev cs1 ev1 Fallthrough → chain l2 ev1 cs2 ev2 x →
  chain (l1 ++ l2) ev (cs1 ++ cs2) ev2 x.
Proof.
  intros H. remember Fallthrough as y eqn:Hy. revert Hy.
  induction H as [ev|li rest ev Hc|li rest ev cs ev' y Hc _ IH];
    intros Hy H2; simpl.
  - done.
  - discriminate.
  - apply chain_go; [done|]. by apply IH.
Qed.

Lemma chain_prefix items ev cs ev' x :
  chain items ev cs ev' x →
  lids cs `prefix_of` (λ li, lid (listener li)) <$> items.
Proof.
  induction 1 as [ev|li rest ev Hc|li rest ev cs ev' x Hc _ IH]; simpl.
  - done.
  - apply prefix_cons, prefix_nil.
  - by apply prefix_cons.
Qed.

Lemma chain_clean items ev cs ev' x :
  chain items ev cs ev' x → Forall clean cs →
  x = Fallthrough ∧ lids cs = (λ li, lid (listener li)) <$> items.
Proof.
  induction 1 as [ev|li rest ev Hc|li rest ev cs ev' x Hc _ IH]; simpl.
  - done.
  - intros [Hcl _]%Forall_cons. done.
  - intros [_ Hcl]%Forall_cons. destruct (IH Hcl) as [-> ->]. done.
Qed.

Lemma chain_first li rest ev cs ev' x :
  chain (li :: rest) ev cs ev' x →
  ∃ cs', cs = call_of li ev :: cs'
         ∧ (¬ clean (call_of li ev) →
            cs' = [] ∧ x = Returned (call_err (call_of li ev))).
Proof.
  inversion 1; subst.
  - by exists [].
  - eexists. split; [done|]. done.
Qed.

Lemma stage_facts e key lq w ev :
  heap w !! e = Some ev →
  ∃ cs ev' x w',
    rangeItems e (ListenerQueue.Sort lq)
      (set_mgr (set_listeners (<[key := ListenerQueue.Sort lq]>
                                 (listeners (mgr w))) (mgr w)) w)
    = (w', Return x)
    ∧ chain (ListenerQueue.Sort lq) ev cs ev' x
    ∧ heap w' = <[e := ev']> (heap w)
    ∧ calls w' = calls w ++ cs
    ∧ mgr w'
      = set_listeners (<[key := ListenerQueue.Sort lq]> (listeners (mgr w)))
                      (mgr w).
Proof.
  intros Hev.
  set (w0 := set_mgr _ w).
  destruct (rangeItems_chain e (ListenerQueue.Sort lq) w0 ev Hev)
    as (cs & ev' & x & Hrun & Hch).
  eexists cs, ev', x, _. split; [exact Hrun|]. done.
Qed.

Lemma insert_Permutation x lq : ListenerQueue.insert x lq ≡ₚ x :: lq.
Proof.
  induction lq as [|y r IH]; simpl; [done|].
  destruct (priority x <? priority y); [|done].
  rewrite IH. apply Permutation_swap.
Qed.

Lemma Sort_Permutation lq : ListenerQueue.Sort lq ≡ₚ lq.
Proof.
  induction lq as [|x r IH]; simpl; [done|].
  rewrite insert_Permutation. by constructor.
Qed.

Lemma reordered_refl ls : reordered ls ls.
Proof. intros k. by destruct (ls !! k). Qed.

Lemma reordered_trans ls1 ls2 ls3 :
  reordered ls1 ls2 → reordered ls2 ls3 → reordered ls1 ls3.
Proof.
  intros H12 H23 k. specialize (H12 k). specialize (H23 k).
  destruct (ls1 !! k), (ls2 !! k), (ls3 !! k); try done. by etrans.
Qed.

Lemma reordered_sort ls key lq :
  ls !! key = Some lq → reordered ls (<[key := ListenerQueue.Sort lq]> ls).
Proof.
  intros Hlq k. destruct (decide (key = k)) as [<-|Hne].
  - rewrite lookup_insert_eq, Hlq. symmetry. apply Sort_Permutation.
  - rewrite lookup_insert_ne by done. by destruct (ls !! k).
Qed.

Lemma same_registry_refl w : same_registry w w.
Proof. split; try done. apply reordered_refl. Qed.

Lemma same_registry_trans w1 w2 w3 :
  same_registry w1 w2 → same_registry w2 w3 → same_registry w1 w3.
Proof.
  intros [] []. split; try congruence. by eapply reordered_trans.
Qed.

Lemma same_registry_mgr w w' : mgr w' = mgr w → same_registry w w'.
Proof. intros H. split; rewrite H; try done. apply reordered_refl. Qed.

Lemma same_registry_sort w w' key lq :
  listeners (mgr w) !! key = Some lq →
  mgr w'
  = set_listeners (<[key := ListenerQueue.Sort lq]> (listeners (mgr w)))
                  (mgr w) →
  same_registry w w'.
Proof.
  intros Hlq H. split; rewrite H; try done. simpl. by apply reordered_sort.
Qed.

(** [FireEvent] on a live event whose name has a queue is one loop over
    the sorted queue followed by more items; for a name other than the
    bare wildcard these are the items of [plan]. *)
Lemma FireEvent_chain e w ev lq :
  heap w !! e = Some ev → listeners (mgr w) !! e_name ev = Some lq →
  ∃ tail cs ev' x w',
    FireEvent e w = (w', Return (exit_err x))
    ∧ chain (ListenerQueue.Sort lq ++ tail) ev cs ev' x
    ∧ heap w' = <[e := ev']> (heap w)
    ∧ calls w' = calls w ++ cs
    ∧ pool (mgr w') = pool (mgr w)
    ∧ same_registry w w'
    ∧ (e_name ev ≠ Wildcard →
       ListenerQueue.Sort lq ++ tail = plan (mgr w) (e_name ev)).
Proof.
  intros Hev Hlq.
  assert (Hlt : (e < length (heap w))%nat) by by eapply lookup_lt_Some.
  unfold FireEvent.
  rewrite (bind_Return _ _ _ _ _ (Name_run e w ev Hev)).
  rewrite (bind_Return get_mgr _ w w (mgr w) eq_refl), Hlq.
  rewrite (bind_Return _ _ _ _ _ (sortedItems_run _ lq w)).
  destruct (stage_facts e (e_name ev) lq w ev Hev)
    as (cs1 & ev1 & x1 & w1 & Hrun1 & Hch1 & Hh1 & Hc1 & Hm1).
  rewrite (bind_Return _ _ _ _ _ Hrun1).
  assert (Hev1 : heap w1 !! e = Some ev1)
    by (rewrite Hh1; by apply list_lookup_insert_eq).
  pose proof (same_registry_sort w w1 _ lq Hlq Hm1) as Hr1.
  assert (Hp1 : pool (mgr w1) = pool (mgr w)) by by rewrite Hm1.
  assert (Hls1 : listeners (mgr w1)
    = <[e_name ev := ListenerQueue.Sort lq]> (listeners (mgr w)))
    by by rewrite Hm1.
  set (items2 := match groupName (e_name ev) with
                 | Some g => itemsAt g (mgr w)
                 | None => []
                 end).
  set (items3 := itemsAt Wildcard (mgr w)).
  assert (Hplan : e_name ev ≠ Wildcard →
    ListenerQueue.Sort lq ++ items2 ++ items3 = plan (mgr w) (e_name ev)).
  { intros _. unfold plan, itemsAt at 1. by rewrite Hlq. }
  destruct x1 as [|err1].
  2:{ exists (items2 ++ items3), cs1, ev1, (Returned err1), w1.
      split; [reflexivity|]. split; [by apply chain_app_stop|]. done. }
  (* the group loop *)
  assert (Hgroup : ∃ cs2 ev2 x2 w2,
    (if (0 <? Str.LastIndexByte (e_name ev) ".")
        && (Str.LastIndexByte (e_name ev) "." <? Str.len (e_name ev)) then
       get_mgr ≫= λ em,
         match listeners em
               !! (Str.slice_to (e_name ev)
                     (Str.LastIndexByte (e_name ev) ".") +:+ Wildcard) with
         | Some lq =>
             sortedItems (Str.slice_to (e_name ev)
                            (Str.LastIndexByte (e_name ev) ".") +:+ Wildcard)
                         lq ≫= λ items, rangeItems e items
         | None => mret Fallthrough
         end
     else mret Fallthrough) w1 = (w2, Return x2)
    ∧ chain items2 ev1 cs2 ev2 x2
    ∧ heap w2 = <[e := ev2]> (heap w1)
    ∧ calls w2 = calls w1 ++ cs2
    ∧ pool (mgr w2) = pool (mgr w1)
    ∧ same_registry w1 w2
    ∧ listeners (mgr w2) !! Wildcard = listeners (mgr w1) !! Wildcard).
  { assert (Hskip : items2 = [] → ∃ cs2 ev2 x2 w2,
      (mret Fallthrough : Go LoopExit) w1 = (w2, Return x2)
      ∧ chain items2 ev1 cs2 ev2 x2
      ∧ heap w2 = <[e := ev2]> (heap w1)
      ∧ calls w2 = calls w1 ++ cs2
      ∧ pool (mgr w2) = pool (mgr w1)
      ∧ same_registry w1 w2
      ∧ listeners (mgr w2) !! Wildcard = listeners (mgr w1) !! Wildcard).
    { intros ->. exists [], ev1, Fallthrough, w1.
      split; [done|]. split; [constructor|].
      split; [by rewrite (list_insert_id _ _ _ Hev1)|].
      split; [by rewrite (right_id_L [] (++))|].
      split; [done|]. split; [apply same_registry_refl|done]. }
    set (g := Str.slice_to (e_name ev) (Str.LastIndexByte (e_name ev) ".")
              +:+ Wildcard).
    assert (Hgn : groupName (e_name ev)
      = if (0 <? Str.LastIndexByte (e_name ev) ".")
           && (Str.LastIndexByte (e_name ev) "." <? Str.len (e_name ev))
        then Some g else None) by reflexivity.
    destruct ((0 <? Str.LastIndexByte (e_name ev) ".")
              && (Str.LastIndexByte (e_name ev) "." <? Str.len (e_name ev))).
    2:{ apply Hskip. unfold items2. by rewrite Hgn. }
    destruct (groupName_fresh _ _ Hgn) as [Hne Hgw].
    rewrite (bind_Return get_mgr _ w1 w1 (mgr w1) eq_refl).
    assert (Hlook : listeners (mgr w1) !! g = listeners (mgr w) !! g)
      by (rewrite Hls1; by apply lookup_insert_ne).
    assert (Hitems2 : items2 = itemsAt g (mgr w))
      by (unfold items2; by rewrite Hgn).
    unfold itemsAt in Hitems2.
    destruct (listeners (mgr w1) !! g) as [lq2|] eqn:Hlq2;
      rewrite <- Hlook in Hitems2; [|by apply Hskip].
    rewrite Hitems2.
    rewrite (bind_Return _ _ _ _ _ (sortedItems_run _ lq2 w1)).
    destruct (stage_facts e g lq2 w1 ev1 Hev1)
      as (cs2 & ev2 & x2 & w2 & Hrun2 & Hch2 & Hh2 & Hc2 & Hm2).
    exists cs2, ev2, x2, w2. split; [exact Hrun2|]. split; [exact Hch2|].
    split; [exact Hh2|]. split; [exact Hc2|].
    split; [by rewrite Hm2|].
    split; [by apply (same_registry_sort w1 w2 g lq2)|].
    rewrite Hm2. simpl. by apply lookup_insert_ne. }
  destruct Hgroup
    as (cs2 & ev2 & x2 & w2 & Hrun2 & Hch2 & Hh2 & Hc2 & Hp2 & Hr2 & Hw2).
  rewrite (bind_Return _ _ _ _ _ Hrun2).
  assert (Hh12 : heap w2 = <[e := ev2]> (heap w))
    by (rewrite Hh2, Hh1; apply list_insert_insert_eq).
  assert (Hc12 : calls w2 = calls w ++ cs1 ++ cs2)
    by (rewrite Hc2, Hc1; by rewrite (assoc_L (++))).
  assert (Hev2 : heap w2 !! e = Some ev2)
    by (rewrite Hh12; by apply list_lookup_insert_eq).
  pose proof (same_registry_trans _ _ _ Hr1 Hr2) as Hr12.
  assert (Hp12 : pool (mgr w2) = pool (mgr w)) by congruence.
  destruct x2 as [|err2].
  2:{ exists (items2 ++ items3), (cs1 ++ cs2), ev2, (Returned err2), w2.
      split; [reflexivity|].
      split; [|done].
      apply (chain_app_go _ _ _ _ ev1); [done|]. by apply chain_app_stop. }
  (* the wildcard loop *)
  rewrite (bind_Return get_mgr _ w2 w2 (mgr w2) eq_refl).
  set (items3' := match listeners (mgr w2) !! Wildcard with
                  | Some lq3 => ListenerQueue.Sort lq3
                  | None => []
                  end).
  assert (Hitems3 : e_name ev ≠ Wildcard → items3' = items3).
  { intros Hne. unfold items3', items3, itemsAt.
    rewrite Hw2, Hls1. by rewrite lookup_insert_ne. }
  assert (Htail : e_name ev ≠ Wildcard →
    ListenerQueue.Sort lq ++ items2 ++ items3' = plan (mgr w) (e_name ev)).
  { intros Hne. rewrite (Hitems3 Hne). by apply Hplan. }
  subst items3'.
  destruct (listeners (mgr w2) !! Wildcard) as [lq3|] eqn:Hlq3.
  2:{ exists (items2 ++ []), (cs1 ++ cs2), ev2, Fallthrough, w2.
      split; [reflexivity|].
      split; [|done].
      rewrite (right_id_L [] (++)). by apply (chain_app_go _ _ _ _ ev1). }
  rewrite (bind_Return _ _ _ _ _ (sortedItems_run _ lq3 w2)).
  destruct (stage_facts e Wildcard lq3 w2 ev2 Hev2)
    as (cs3 & ev3 & x3 & w3 & Hrun3 & Hch3 & Hh3 & Hc3 & Hm3).
  rewrite (bind_Return _ _ _ _ _ Hrun3).
  exists (items2 ++ ListenerQueue.Sort lq3), (cs1 ++ cs2 ++ cs3), ev3, x3, w3.
  split; [by destruct x3|].
  split.
  { apply (chain_app_go _ _ _ _ ev1); [done|].
    by apply (chain_app_go _ _ _ _ ev2). }
  split; [rewrite Hh3, Hh12; apply list_insert_insert_eq|].
  split; [rewrite Hc3, Hc12; by rewrite <- !(assoc_L (++))|].
  split; [by rewrite Hm3|].
  split; [|done].
  apply (same_registry_trans _ _ _ Hr12).
  by apply (same_registry_sort w2 w3 Wildcard lq3).
Qed.

(** X1. [FireEvent] on a live event whose name is not the bare wildcard
    returns, and it behaves as one loop over [plan]: the listeners called
    are the first ones of the plan, in its order; the loop stops at the
    first call that is not clean and returns its error; when every call is
    clean the whole plan has been called and nil is returned. When the
    name has no queue of its own the plan is empty. *)
Theorem FireEvent_follows_plan e w ev :
  heap w !! e = Some ev → e_name ev ≠ Wildcard →
  ∃ cs ev' x w',
    FireEvent e w = (w', Return (exit_err x))
    ∧ calls w' = calls w ++ cs
    ∧ heap w' = <[e := ev']> (heap w)
    ∧ chain (plan (mgr w) (e_name ev)) ev cs ev' x
    ∧ lids cs `prefix_of`
        (λ li, lid (listener li)) <$> plan (mgr w) (e_name ev)
    ∧ (Forall clean cs →
       x = Fallthrough
       ∧ lids cs = (λ li, lid (listener li)) <$> plan (mgr w) (e_name ev)).
Proof.
  intros Hev Hne.
  assert (Hfin : ∀ cs ev' x w',
    FireEvent e w = (w', Return (exit_err x)) →
    calls w' = calls w ++ cs → heap w' = <[e := ev']> (heap w) →
    chain (plan (mgr w) (e_name ev)) ev cs ev' x →
    ∃ cs ev' x w',
      FireEvent e w = (w', Return (exit_err x))
      ∧ calls w' = calls w ++ cs
      ∧ heap w' = <[e := ev']> (heap w)
      ∧ chain (plan (mgr w) (e_name ev)) ev cs ev' x
      ∧ lids cs `prefix_of`
          (λ li, lid (listener li)) <$> plan (mgr w) (e_name ev)
      ∧ (Forall clean cs →
         x = Fallthrough
         ∧ lids cs
           = (λ li, lid (listener li)) <$> plan (mgr w) (e_name ev))).
  { intros cs ev' x w' H1 H2 H3 H4. exists cs, ev', x, w'.
    split; [done|]. split; [done|]. split; [done|]. split; [done|].
    split; [by eapply chain_prefix|]. by eapply chain_clean. }
  destruct (listeners (mgr w) !! e_name ev) as [lq|] eqn:Hlq.
  - destruct (FireEvent_chain e w ev lq Hev Hlq)
      as (tail & cs & ev' & x & w' & Hfire & Hch & Hh & Hc & _ & _ & Hplan).
    rewrite (Hplan Hne) in Hch. by apply (Hfin cs ev' x w').
  - apply (Hfin [] ev Fallthrough w).
    + by apply FireEvent_no_exact_queue with ev.
    + by rewrite (right_id_L [] (++)).
    + by rewrite (list_insert_id _ _ _ Hev).
    + unfold plan. rewrite Hlq. constructor.
Qed.

Lemma FireEvent_follows_plan_witness :
  heap w_fail !! 0%nat = Some (mkEvent "app.run" ∅ false)
  ∧ "app.run" ≠ Wildcard
  ∧ (λ li, lid (listener li)) <$> plan (mgr w_fail) "app.run" = [1; 2; 3]%nat
  ∧ ∃ cs ev' x w',
      FireEvent 0%nat w_fail = (w', Return (exit_err x))
      ∧ calls w' = calls w_fail ++ cs
      ∧ heap w' = <[0%nat := ev']> (heap w_fail)
      ∧ chain (plan (mgr w_fail) "app.run") (mkEvent "app.run" ∅ false)
              cs ev' x
      ∧ lids cs `prefix_of`
          (λ li, lid (listener li)) <$> plan (mgr w_fail) "app.run"
      ∧ (Forall clean cs →
         x = Fallthrough
         ∧ lids cs
           = (λ li, lid (listener li)) <$> plan (mgr w_fail) "app.run").
Proof.
  split; [reflexivity|]. split; [discriminate|]. split; [reflexivity|].
  apply (FireEvent_follows_plan 0%nat w_fail (mkEvent "app.run" ∅ false));
    [reflexivity|discriminate].
Defined.

(** X2. [FireEvent] looks at the abort flag only after a call: on a live
    event whose name has a queue, the first item of the sorted queue is
    called, seeing the event as it is, even if the event is already
    aborted; if that call is not clean (an error, or the event is aborted
    when it returns) it is the only call and its error is returned. *)
Theorem FireEvent_calls_first_item e w ev lq li rest :
  heap w !! e = Some ev → listeners (mgr w) !! e_name ev = Some lq →
  ListenerQueue.Sort lq = li :: rest →
  ∃ cs r w',
    FireEvent e w = (w', Return r)
    ∧ calls w' = calls w ++ call_of li ev :: cs
    ∧ (¬ clean (call_of li ev) →
       cs = [] ∧ r = call_err (call_of li ev)).
Proof.
  intros Hev Hlq Hsort.
  destruct (FireEvent_chain e w ev lq Hev Hlq)
    as (tail & cs & ev' & x & w' & Hfire & Hch & _ & Hc & _).
  rewrite Hsort in Hch. simpl in Hch.
  destruct (chain_first _ _ _ _ _ _ Hch) as (cs' & -> & Hstop).
  exists cs', (exit_err x), w'. split; [done|]. split; [done|].
  intros Hn. destruct (Hstop Hn) as [-> ->]. done.
Qed.

Lemma FireEvent_calls_first_item_witness :
  heap w_aborted !! 0%nat = Some (mkEvent "app.run" ∅ true)
  ∧ listeners (mgr w_aborted) !! "app.run"
    = Some [mkItem 0 (L_ok 1); mkItem 5 (L_ok 2)]
  ∧ ListenerQueue.Sort [mkItem 0 (L_ok 1); mkItem 5 (L_ok 2)]
    = [mkItem 5 (L_ok 2); mkItem 0 (L_ok 1)]
  ∧ ¬ clean (call_of (mkItem 5 (L_ok 2)) (mkEvent "app.run" ∅ true))
  ∧ ∃ cs r w',
      FireEvent 0%nat w_aborted = (w', Return r)
      ∧ calls w'
        = calls w_aborted
          ++ call_of (mkItem 5 (L_ok 2)) (mkEvent "app.run" ∅ true) :: cs
      ∧ cs = [] ∧ r = None.
Proof.
  split; [reflexivity|]. split; [reflexivity|]. split; [reflexivity|].
  assert (Hn : ¬ clean (call_of (mkItem 5 (L_ok 2))
                                (mkEvent "app.run" ∅ true)))
    by (intros [_ Hc]; discriminate Hc).
  split; [exact Hn|].
  destruct (FireEvent_calls_first_item 0%nat w_aborted
              (mkEvent "app.run" ∅ true)
              [mkItem 0 (L_ok 1); mkItem 5 (L_ok 2)]
              (mkItem 5 (L_ok 2)) [mkItem 0 (L_ok 1)])
    as (cs & r & w' & Hfire & Hc & Hstop); [reflexivity..|].
  exists cs, r, w'. split; [exact Hfire|]. split; [exact Hc|].
  exact (Hstop Hn).
Defined.

(** *** What a dispatch leaves alone *)

Lemma FireEvent_registry e w :
  same_registry w (after (FireEvent e) w)
  ∧ pool (mgr (after (FireEvent e) w)) = pool (mgr w)
  ∧ length (heap (after (FireEvent e) w)) = length (heap w)
  ∧ ∀ l, l ≠ e → heap (after (FireEvent e) w) !! l = heap w !! l.
Proof.
  unfold after.
  destruct (heap w !! e) as [ev|] eqn:Hev.
  2:{ rewrite (FireEvent_nil e w Hev). split; [apply same_registry_refl|done]. }
  destruct (listeners (mgr w) !! e_name ev) as [lq|] eqn:Hlq.
  2:{ rewrite (FireEvent_no_exact_queue e w ev Hev Hlq).
      split; [apply same_registry_refl|done]. }
  destruct (FireEvent_chain e w ev lq Hev Hlq)
    as (tail & cs & ev' & x & w' & -> & _ & Hh & _ & Hp & Hr & _).
  simpl. split; [done|]. split; [done|]. rewrite Hh.
  split; [apply length_insert|].
  intros l Hl. by apply list_lookup_insert_ne.
Qed.

Lemma pool_Get_registry pick w :
  ∃ e w0, pool_Get pick w = (w0, Return e) ∧ same_registry w w0.
Proof.
  unfold pool_Get, pool_New.
  destruct (pick ≫= _) as [[i e]|]; eexists _, _;
    (split; [reflexivity|]); split; try done; apply reordered_refl.
Qed.

Lemma Fire_registry nm args pick w :
  same_registry w (after (Fire nm args pick) w).
Proof.
  unfold after.
  destruct (goodName nm) as [n|v] eqn:Hn.
  2:{ unfold Fire. erewrite bind_Panic; [apply same_registry_refl|].
      unfold lift. by rewrite Hn. }
  unfold Fire.
  rewrite (bind_Return (lift (goodName nm)) _ w w n)
    by (unfold lift; by rewrite Hn).
  rewrite (bind_Return get_mgr _ w w (mgr w) eq_refl).
  destruct (events (mgr w) !! n) as [e|] eqn:Hcat;
    [apply FireEvent_registry|].
  destruct (pool_Get_registry pick w) as (e & w0 & Hget & Hr0).
  rewrite (bind_Return _ _ _ _ _ Hget).
  destruct (heap w0 !! e) as [ev0|] eqn:Hev0.
  2:{ erewrite bind_Panic; [exact Hr0|]. unfold Event.SetName.
      rewrite (bind_Return (lift (goodName n)) _ w0 w0 n)
        by (unfold lift; by rewrite (goodName_idem _ _ Hn)).
      apply bind_Panic. unfold deref. by rewrite Hev0. }
  assert (Hlt : (e < length (heap w0))%nat) by by eapply lookup_lt_Some.
  rewrite (bind_Return _ _ _ _ _
             (SetName_run e n w0 _ (goodName_idem _ _ Hn) Hev0)).
  erewrite (bind_Return (Event.Fill e args)); last first.
  { apply Fill_run. simpl. by apply list_lookup_insert_eq. }
  simpl. rewrite list_insert_insert_eq.
  set (w1 := set_heap _ (set_heap _ w0)).
  assert (Hev1 : heap w1 !! e = Some (mkEvent n args (e_aborted ev0))).
  { simpl. by apply list_lookup_insert_eq. }
  destruct (FireEvent_run e w1 _ Hev1)
    as (cs & ev' & r & w2 & Hfire & _ & Hev2 & _).
  pose proof (FireEvent_registry e w1) as [Hr12 _].
  unfold after in Hr12. rewrite Hfire in Hr12. simpl in Hr12.
  rewrite (bind_Return _ _ _ _ _ Hfire).
  rewrite (bind_Return _ _ _ _ _ (reset_run e w2 _ Hev2)).
  simpl.
  apply (same_registry_trans _ w0); [done|].
  apply (same_registry_trans _ w2).
  - apply (same_registry_trans _ w1); [|done].
    by apply same_registry_mgr.
  - split; try done. apply reordered_refl.
Qed.

Lemma MustFire_after nm args pick w :
  after (MustFire nm args pick) w = after (Fire nm args pick) w.
Proof.
  unfold after, MustFire, mbind, Go_bind.
  by destruct (Fire nm args pick w) as [w' [[err|]|v]].
Qed.

(** X3. No dispatch registers or removes anything. Whatever the name, the
    event and the world, [Fire], [MustFire] and [FireEvent] leave the
    manager's name, the catalog and the counts as they are and only change
    the order of the items inside the queues; so the answers of
    [HasListeners] and [GetEvent] are the same before and after.
    [FireEvent] moreover leaves the pool alone and touches no event object
    but the one it is given. *)
Theorem dispatch_keeps_registry nm args pick e w k :
  same_registry w (after (Fire nm args pick) w)
  ∧ same_registry w (after (MustFire nm args pick) w)
  ∧ same_registry w (after (FireEvent e) w)
  ∧ pool (mgr (after (FireEvent e) w)) = pool (mgr w)
  ∧ length (heap (after (FireEvent e) w)) = length (heap w)
  ∧ (∀ l, l ≠ e → heap (after (FireEvent e) w) !! l = heap w !! l)
  ∧ result (HasListeners k) (after (Fire nm args pick) w)
    = result (HasListeners k) w
  ∧ result (GetEvent k) (after (Fire nm args pick) w)
    = result (GetEvent k) w
  ∧ length <$> listeners (mgr (after (Fire nm args pick) w)) !! k
    = length <$> listeners (mgr w) !! k.
Proof.
  pose proof (Fire_registry nm args pick w) as HF.
  destruct (FireEvent_registry e w) as (HE & Hp & Hl & Ho).
  split; [exact HF|]. split; [by rewrite MustFire_after|].
  split; [exact HE|]. split; [exact Hp|]. split; [exact Hl|].
  split; [exact Ho|].
  destruct HF as [_ Hev Hln Hls]. unfold result, HasListeners, GetEvent.
  rewrite !(bind_Return get_mgr _ _ _ _ eq_refl). simpl.
  rewrite Hev, Hln. split; [done|]. split; [done|].
  specialize (Hls k).
  destruct (listeners (mgr w) !! k),
    (listeners (mgr (after (Fire nm args pick) w)) !! k); try done.
  simpl. f_equal. symmetry. by apply Permutation_length.
Qed.

(** *** The keys and the counts of the tables *)

Lemma same_registry_keys_ok w w' :
  same_registry w w' → keys_ok (mgr w) → keys_ok (mgr w').
Proof.
  intros [_ He Hn Hl] [Kl Ke Ka]. split.
  - intros k Hk. apply Kl. specialize (Hl k).
    destruct (listeners (mgr w) !! k), (listeners (mgr w') !! k);
      by try destruct Hk.
  - rewrite He. exact Ke.
  - intros k. rewrite Hn, (Ka k). specialize (Hl k).
    destruct (listeners (mgr w) !! k), (listeners (mgr w') !! k);
      try done; split; eauto.
Qed.

Lemma same_registry_counts_ok w w' :
  same_registry w w' → counts_ok (mgr w) → counts_ok (mgr w').
Proof.
  intros [_ _ Hn Hl] Hc k lq' Hk. specialize (Hl k). rewrite Hk in Hl.
  destruct (listeners (mgr w) !! k) as [lq|] eqn:Hq; [|done].
  destruct (Hc k lq Hq) as [Hne Hcount]. split.
  - intros ->. apply Permutation_nil_r in Hl. done.
  - rewrite Hn, Hcount. by rewrite (Permutation_length Hl).
Qed.

Lemma On_after nm l p w :
  after (On nm l p) w = w
  ∨ ∃ n li, goodName nm = Return n ∧ l = Some li
            ∧ after (On nm l p) w = set_mgr (registered n li p (mgr w)) w.
Proof.
  unfold after.
  destruct (goodName nm) as [n|v] eqn:Hn.
  - destruct l as [li|].
    + right. exists n, li. by rewrite (On_run nm n li p w Hn).
    + left. by destruct (On_nil nm n p w Hn) as [v ->].
  - left. by rewrite (On_bad_name nm l p w v Hn).
Qed.

Lemma On_keys_ok nm l p w :
  keys_ok (mgr w) → keys_ok (mgr (after (On nm l p) w)).
Proof.
  intros Hk. pose proof (On_tables_agree nm l p w (keys_agree _ Hk)) as Ha.
  destruct (On_after nm l p w) as [->|(n & li & Hn & -> & Hrun)]; [done|].
  rewrite Hrun in *. destruct Hk as [Kl Ke _]. split; [|done..].
  intros k. simpl. destruct (decide (n = k)) as [<-|Hne].
  - intros _. by apply goodName_idem with nm.
  - rewrite lookup_insert_ne by done. apply Kl.
Qed.

Lemma wrap64_small z : 0 <= z < 2 ^ 63 → wrap64 z = z.
Proof. intros Hz. unfold wrap64. rewrite Z.mod_small; lia. Qed.

Lemma wrap64_succ z : wrap64 (wrap64 z + 1) = wrap64 (z + 1).
Proof.
  unfold wrap64.
  replace ((z + 2 ^ 63) mod 2 ^ 64 - 2 ^ 63 + 1 + 2 ^ 63)
    with ((z + 2 ^ 63) mod 2 ^ 64 + 1) by lia.
  rewrite Zplus_mod_idemp_l. f_equal. f_equal. lia.
Qed.

Lemma On_counts_ok nm l p w :
  counts_ok (mgr w) → counts_ok (mgr (after (On nm l p) w)).
Proof.
  intros Hc.
  destruct (On_after nm l p w) as [->|(n & li & Hn & -> & ->)]; [done|].
  intros k lq'. simpl. destruct (decide (n = k)) as [<-|Hne].
  - rewrite !lookup_insert_eq. intros [= <-].
    split; [by destruct (default [] _)|].
    destruct (listeners (mgr w) !! n) as [lq|] eqn:Hq; simpl.
    + destruct (Hc n lq Hq) as [_ ->]. simpl.
      rewrite wrap64_succ, length_app. simpl. do 3 f_equal. lia.
    + reflexivity.
  - rewrite !lookup_insert_ne by done. apply Hc.
Qed.

Lemma ClearListeners_keys_ok nm w :
  keys_ok (mgr w) → keys_ok (mgr (after (ClearListeners nm) w)).
Proof.
  intros Hk.
  pose proof (ClearListeners_tables_agree nm w (keys_agree _ Hk)) as Ha.
  unfold after in *. rewrite ClearListeners_run in *. simpl in *.
  destruct (listenedNames (mgr w) !! nm); [|done].
  destruct Hk as [Kl Ke _]. split; [|done..].
  intros k. simpl. intros [lq [_ Hq]%lookup_delete_Some]. apply Kl. eauto.
Qed.

Lemma ClearListeners_counts_ok nm w :
  counts_ok (mgr w) → counts_ok (mgr (after (ClearListeners nm) w)).
Proof.
  intros Hc. unfold after. rewrite ClearListeners_run. simpl.
  destruct (listenedNames (mgr w) !! nm); [|done].
  intros k lq. simpl. intros [Hne Hq]%lookup_delete_Some.
  rewrite lookup_delete_ne by done. by apply Hc.
Qed.

Lemma AddEvent_after e w :
  after (AddEvent e) w = w
  ∨ ∃ ev n, heap w !! e = Some ev ∧ goodName (e_name ev) = Return n
            ∧ after (AddEvent e) w
              = set_mgr (set_events (<[n := e]> (events (mgr w))) (mgr w)) w.
Proof.
  unfold after.
  destruct (heap w !! e) as [ev|] eqn:Hev.
  - destruct (goodName (e_name ev)) as [n|v] eqn:Hn.
    + right. exists ev, n. by rewrite (AddEvent_run e w ev n Hev Hn).
    + left. unfold AddEvent.
      rewrite (bind_Return _ _ _ _ _ (Name_run e w ev Hev)).
      erewrite bind_Panic; [done|]. unfold lift. by rewrite Hn.
  - left. unfold AddEvent, Event.Name.
    erewrite bind_Panic; [done|]. apply bind_Panic.
    unfold deref. by rewrite Hev.
Qed.

Lemma DelEvent_after nm w :
  after (DelEvent nm) w
  = set_mgr (set_events (delete nm (events (mgr w))) (mgr w)) w.
Proof.
  unfold after, DelEvent.
  rewrite (bind_Return get_mgr _ w w (mgr w) eq_refl).
  destruct (events (mgr w) !! nm) eqn:Hn; [done|].
  simpl. rewrite delete_id by done. by destruct w as [h [] c].
Qed.

Lemma run_call_keys_ok c w :
  keys_ok (mgr w) → keys_ok (mgr (run_call c w)).
Proof.
  intros Hk. destruct c; simpl;
    [|by apply (same_registry_keys_ok w); [apply Fire_registry|]
     |by rewrite MustFire_after;
         apply (same_registry_keys_ok w); [apply Fire_registry|]
     |by apply (same_registry_keys_ok w); [apply FireEvent_registry|]
     |done| | |done|done| | |].
  - by apply On_keys_ok.
  - by apply ClearListeners_keys_ok.
  - destruct (AddEvent_after e w) as [->|(ev & n & _ & Hn & ->)]; [done|].
    destruct Hk as [Kl Ke Ka]. split; [done| |done].
    intros k. simpl. destruct (decide (n = k)) as [<-|Hne].
    + intros _. by apply goodName_idem with (e_name ev).
    + rewrite lookup_insert_ne by done. apply Ke.
  - rewrite DelEvent_after. destruct Hk as [Kl Ke Ka].
    split; [done| |done].
    intros k. simpl. intros [l [_ Hq]%lookup_delete_Some]. apply Ke. eauto.
  - destruct Hk as [Kl Ke Ka]. split; [done| |done].
    intros k. simpl. rewrite lookup_empty. by intros [? ?].
  - split; intros k; simpl; rewrite ?lookup_empty;
      try (by intros [? ?]). split; by intros [? ?].
Qed.

Lemma run_call_counts_ok c w :
  counts_ok (mgr w) → counts_ok (mgr (run_call c w)).
Proof.
  intros Hc. destruct c; simpl.
  - by apply On_counts_ok.
  - apply (same_registry_counts_ok w); [apply Fire_registry|done].
  - rewrite MustFire_after.
    apply (same_registry_counts_ok w); [apply Fire_registry|done].
  - apply (same_registry_counts_ok w); [apply FireEvent_registry|done].
  - done.
  - by apply ClearListeners_counts_ok.
  - by destruct (AddEvent_after e w) as [->|(ev & n & _ & Hn & ->)].
  - done.
  - done.
  - by rewrite DelEvent_after.
  - done.
  - intros k lq. simpl. by rewrite lookup_empty.
Qed.

Lemma run_api_invariant (P : Manager → Prop) cs :
  (∀ c w, P (mgr w) → P (mgr (run_call c w))) →
  ∀ w, P (mgr w) → P (mgr (run_api cs w)).
Proof.
  intros Hstep. induction cs as [|c cs IH]; intros w Hw; simpl; [done|].
  by apply IH, Hstep.
Qed.

(** X4. A manager driven through its methods only, in any order and with
    any arguments, holds none but validated names as keys: every key of
    [listeners], of [listenedNames] and of the catalog is a name that
    [goodName] returns unchanged, and the two listener tables hold the
    same names. The bare wildcard is no such name: it is never a key, and
    the third loop of [FireEvent] finds no queue. *)
Theorem registry_keys_validated (cs : list Api) (evs : list BasicEvent)
    (nm : string) :
  let w := run_api cs (mkWorld evs (NewManager nm) []) in
  (∀ k, is_Some (listeners (mgr w) !! k)
        ∨ is_Some (listenedNames (mgr w) !! k)
        ∨ is_Some (events (mgr w) !! k) →
        goodName k = Return k)
  ∧ (∀ k, is_Some (listenedNames (mgr w) !! k)
          ↔ is_Some (listeners (mgr w) !! k))
  ∧ listeners (mgr w) !! Wildcard = None
  ∧ listenedNames (mgr w) !! Wildcard = None
  ∧ events (mgr w) !! Wildcard = None
  ∧ itemsAt Wildcard (mgr w) = [].
Proof.
  intros w.
  assert (Hk : keys_ok (mgr w)).
  { apply (run_api_invariant keys_ok); [apply run_call_keys_ok|].
    split; intros k; simpl; rewrite ?lookup_empty;
      try (by intros [? ?]). split; by intros [? ?]. }
  destruct Hk as [Kl Ke Ka].
  assert (Hall : ∀ k, is_Some (listeners (mgr w) !! k)
        ∨ is_Some (listenedNames (mgr w) !! k)
        ∨ is_Some (events (mgr w) !! k) →
        goodName k = Return k).
  { intros k [H|[H|H]]; [by apply Kl|by apply Kl, Ka|by apply Ke]. }
  assert (Hno : ∀ (m : gmap string ListenerQueue.t),
    (is_Some (m !! Wildcard) → goodName Wildcard = Return Wildcard) →
    m !! Wildcard = None).
  { intros m Hm. destruct (m !! Wildcard); [|done].
    by discriminate Hm. }
  split; [exact Hall|]. split; [exact Ka|].
  assert (Hl : listeners (mgr w) !! Wildcard = None) by (apply Hno, Kl).
  split; [exact Hl|].
  split.
  { destruct (listenedNames (mgr w) !! Wildcard) eqn:Hq; [|done].
    assert (Hs : goodName Wildcard = Return Wildcard)
      by (apply Hall; right; left; rewrite Hq; eauto).
    discriminate Hs. }
  split.
  { destruct (events (mgr w) !! Wildcard) eqn:Hq; [|done].
    assert (Hs : goodName Wildcard = Return Wildcard)
      by (apply Ke; rewrite Hq; eauto).
    discriminate Hs. }
  unfold itemsAt. by rewrite Hl.
Qed.

(** X5. In a manager driven through its methods only, no queue is empty
    and [listenedNames] holds, for each name with a queue, the number of
    items of the queue as an [int]: one more with every [On], not only
    with the first one. *)
Theorem listenedNames_counts_items (cs : list Api) (evs : list BasicEvent)
    (nm k : string) (lq : ListenerQueue.t) :
  listeners (mgr (run_api cs (mkWorld evs (NewManager nm) []))) !! k
  = Some lq →
  lq ≠ []
  ∧ listenedNames (mgr (run_api cs (mkWorld evs (NewManager nm) []))) !! k
    = Some (wrap64 (Z.of_nat (length lq)))
  ∧ (Z.of_nat (length lq) < 2 ^ 63 →
     listenedNames (mgr (run_api cs (mkWorld evs (NewManager nm) []))) !! k
     = Some (Z.of_nat (length lq))).
Proof.
  intros Hq.
  assert (Hc : counts_ok (mgr (run_api cs (mkWorld evs (NewManager nm) [])))).
  { apply (run_api_invariant counts_ok); [apply run_call_counts_ok|].
    intros k' lq'. simpl. by rewrite lookup_empty. }
  destruct (Hc k lq Hq) as [Hne Hcount].
  split; [exact Hne|]. split; [exact Hcount|].
  intros Hlt. rewrite Hcount, wrap64_small; [done|lia].
Qed.

Lemma listenedNames_counts_items_witness :
  listeners (mgr (run_api api_sample (mkWorld [] (NewManager "app") [])))
    !! "app.run"
  = Some [mkItem 5 (L_ok 2); mkItem 0 (L_ok 1); mkItem 0 (L_ok 3)]
  ∧ listenedNames
      (mgr (run_api api_sample (mkWorld [] (NewManager "app") [])))
      !! "app.run" = Some 3.
Proof.
  split; [reflexivity|].
  destruct (listenedNames_counts_items api_sample [] "app" "app.run"
              [mkItem 5 (L_ok 2); mkItem 0 (L_ok 1); mkItem 0 (L_ok 3)])
    as (_ & _ & Hcount); [reflexivity|].
  apply Hcount. reflexivity.
Defined.

(** *** Firing through a scratch event *)

(** Where the object [em.pool.Get()] returns comes from. *)
Lemma pool_Get_cases pick w :
  (∃ i e, pick = Some i ∧ pool (mgr w) !! i = Some e
          ∧ pool_Get pick w
            = (set_mgr (set_pool (delete i (pool (mgr w))) (mgr w)) w,
               Return e))
  ∨ ((pick = None ∨ ∃ i, pick = Some i ∧ pool (mgr w) !! i = None)
     ∧ pool_Get pick w
       = (set_heap (heap w ++ [zero_event]) w, Return (length (heap w)))).
Proof.
  unfold pool_Get, pool_New. destruct pick as [i|]; simpl.
  - destruct (pool (mgr w) !! i) as [e|] eqn:Hi; simpl.
    + left. by exists i, e.
    + right. split; [right; by exists i|done].
  - right. split; [by left|done].
Qed.

(** [Fire] on a valid name without catalog event, with what
    [em.pool.Get()] leaves alone. *)
Lemma Fire_scratch_facts nm n args pick w :
  pool_ok w → goodName nm = Return n → events (mgr w) !! n = None →
  ∃ e w0 w2 r,
    pool_Get pick w = (w0, Return e)
    ∧ heap w0 !! e = Some zero_event
    ∧ listeners (mgr w0) = listeners (mgr w)
    ∧ calls w0 = calls w
    ∧ heap (filled e n args w0) !! e = Some (mkEvent n args false)
    ∧ FireEvent e (filled e n args w0) = (w2, Return r)
    ∧ Fire nm args pick w = (released e w2, Return r).
Proof.
  intros Hok Hn Hnone.
  destruct (Fire_scratch nm n args pick w Hok Hn Hnone)
    as (e & w0 & w2 & cs & ev' & r & Hget & Hzero & Hfire & HFire & _).
  destruct (pool_Get_run pick w Hok)
    as (e' & w0' & Hget' & _ & _ & _ & _ & _ & Hls & Hcs).
  rewrite Hget in Hget'. injection Hget' as <- <-.
  exists e, w0, w2, r. repeat (split; [done|]). split; [|done].
  simpl. apply list_lookup_insert_eq. by eapply lookup_lt_Some.
Qed.

(** [Fire] on a valid name that has neither a catalog event nor a queue of
    its own calls no one and returns nil. *)
Lemma Fire_no_queue nm n args pick w :
  pool_ok w → goodName nm = Return n → events (mgr w) !! n = None →
  listeners (mgr w) !! n = None →
  ∃ w', Fire nm args pick w = (w', Return None) ∧ calls w' = calls w.
Proof.
  intros Hok Hn Hnone Hq.
  destruct (Fire_scratch_facts nm n args pick w Hok Hn Hnone)
    as (e & w0 & w2 & r & _ & _ & Hls & Hcs & Hev & Hfire & HFire).
  rewrite (FireEvent_no_exact_queue e _ _ Hev) in Hfire
    by (simpl; by rewrite Hls).
  injection Hfire as <- <-.
  eexists. split; [exact HFire|]. simpl. exact Hcs.
Qed.





(** X8. [Clear] forgets every listener and every catalog event and leaves
    the pool and the event objects alone: afterwards [HasListeners] is
    false and [GetEvent] finds nothing, for every name, and in a
    well-formed world [Fire] on any valid name returns nil without a
    single call. *)
Theorem Clear_then_fire nm n args pick k w :
  pool_ok w → goodName nm = Return n →
  HasListeners k (after Clear w) = (after Clear w, Return false)
  ∧ GetEvent k (after Clear w) = (after Clear w, Return None)
  ∧ pool (mgr (after Clear w)) = pool (mgr w)
  ∧ heap (after Clear w) = heap w
  ∧ name (mgr (after Clear w)) = ""
  ∧ ∃ w', Fire nm args pick (after Clear w) = (w', Return None)
          ∧ calls w' = calls w.
Proof.
  intros Hok Hn.
  split; [unfold HasListeners;
          rewrite (bind_Return get_mgr _ _ _ _ eq_refl); simpl;
          by rewrite lookup_empty|].
  split; [unfold GetEvent;
          rewrite (bind_Return get_mgr _ _ _ _ eq_refl); simpl;
          by rewrite lookup_empty|].
  do 3 (split; [reflexivity|]).
  change (calls w) with (calls (after Clear w)).
  apply Fire_no_queue with n; [by apply Clear_pool_ok|done|..];
    simpl; apply lookup_empty.
Qed.

Lemma Clear_then_fire_witness :
  pool_ok w_used ∧ goodName "e" = Return "e"
  ∧ result (HasListeners "e") w_used = Return true
  ∧ HasListeners "e" (after Clear w_used) = (after Clear w_used, Return false)
  ∧ pool (mgr (after Clear w_used)) = [0%nat]
  ∧ ∃ w', Fire "e" ∅ (Some 0%nat) (after Clear w_used) = (w', Return None)
          ∧ calls w' = calls w_used.
Proof.
  assert (Hok : pool_ok w_used).
  { apply pool_ok_no_catalog.
    - reflexivity.
    - vm_compute. apply NoDup_singleton.
    - vm_compute. repeat constructor. }
  destruct (Clear_then_fire "e" "e" ∅ (Some 0%nat) "e" w_used Hok eq_refl)
    as (Hh & _ & Hp & _ & _ & Hf).
  split; [exact Hok|]. do 2 (split; [reflexivity|]).
  split; [exact Hh|]. split; [exact Hp|exact Hf].
Defined.

(** *** The catalog *)

(** X9. [AddEvent] of a live event with a valid name [n] makes [HasEvent n]
    true; [DelEvent n] makes it false again and touches no other name; and
    when the catalog held nothing under [n] before, [AddEvent] followed by
    [DelEvent n] gives back the world as it was. *)
Theorem AddEvent_DelEvent_round_trip e w ev n k :
  heap w !! e = Some ev → goodName (e_name ev) = Return n →
  result (HasEvent n) (after (AddEvent e) w) = Return true
  ∧ result (HasEvent n) (after (DelEvent n) (after (AddEvent e) w))
    = Return false
  ∧ (k ≠ n →
     result (GetEvent k) (after (AddEvent e) w) = result (GetEvent k) w
     ∧ result (GetEvent k) (after (DelEvent n) w) = result (GetEvent k) w)
  ∧ (events (mgr w) !! n = None →
     after (DelEvent n) (after (AddEvent e) w) = w).
Proof.
  intros Hev Hn.
  assert (Hadd : after (AddEvent e) w
    = set_mgr (set_events (<[n := e]> (events (mgr w))) (mgr w)) w)
    by (unfold after; by rewrite (AddEvent_run e w ev n Hev Hn)).
  rewrite !DelEvent_after, !Hadd.
  unfold result, HasEvent, GetEvent.
  rewrite !(bind_Return get_mgr _ _ _ _ eq_refl). simpl.
  split; [by rewrite lookup_insert_eq|].
  split; [by rewrite lookup_delete_eq|].
  split.
  - intros Hk. rewrite lookup_insert_ne, lookup_delete_ne by done. done.
  - intros Hnone. rewrite delete_insert_id by done.
    by destruct w as [h [] c].
Qed.

Lemma AddEvent_DelEvent_round_trip_witness :
  heap w_catalog !! 1%nat = Some (mkEvent "e1" ∅ false)
  ∧ goodName "e1" = Return "e1"
  ∧ result (GetEvent "e1") w_catalog = Return (Some 0%nat)
  ∧ result (GetEvent "e1") (after (AddEvent 1%nat) w_catalog)
    = Return (Some 1%nat)
  ∧ result (HasEvent "e1")
      (after (DelEvent "e1") (after (AddEvent 1%nat) w_catalog))
    = Return false
  ∧ events (mgr w_group) !! "app.run" = None
  ∧ after (DelEvent "app.run") (after (AddEvent 0%nat) w_group) = w_group.
Proof.
  destruct (AddEvent_DelEvent_round_trip 1%nat w_catalog
              (mkEvent "e1" ∅ false) "e1" "e1" eq_refl eq_refl)
    as (_ & Hdel & _).
  destruct (AddEvent_DelEvent_round_trip 0%nat w_group
              (mkEvent "app.run" ∅ false) "app.run" "app.run"
              eq_refl eq_refl)
    as (_ & _ & _ & Hback).
  do 4 (split; [reflexivity|]). split; [exact Hdel|].
  split; [reflexivity|]. apply Hback. reflexivity.
Defined.

Lemma pool_ok_fewer_events w evs :
  pool_ok w → evs ⊆ events (mgr w) →
  pool_ok (set_mgr (set_events evs (mgr w)) w).
Proof. intros Hok Hsub. by apply (pool_ok_frame w). Qed.

(** The event objects a fire through a scratch event leaves alone: all but
    the scratch object. *)
Lemma Fire_scratch_other nm n args pick w l :
  pool_ok w → goodName nm = Return n → events (mgr w) !! n = None →
  (l < length (heap w))%nat → l ∉ pool (mgr w) →
  heap (after (Fire nm args pick) w) !! l = heap w !! l.
Proof.
  intros Hok Hn Hnone Hl Hp.
  destruct (Fire_scratch_facts nm n args pick w Hok Hn Hnone)
    as (e & w0 & w2 & r & Hget & Hzero & _ & _ & Hev & Hfire & HFire).
  unfold after. rewrite HFire. simpl.
  assert (Hne : l ≠ e ∧ heap w0 !! l = heap w !! l).
  { destruct (pool_Get_cases pick w)
      as [(i & e' & _ & Hi & Heq)|[_ Heq]];
      rewrite Heq in Hget; injection Hget as <- <-; simpl.
    - split; [|done]. intros ->. apply Hp.
      apply list_elem_of_lookup. eauto.
    - split; [lia|]. by apply lookup_app_l. }
  destruct Hne as [Hne H0].
  rewrite list_lookup_insert_ne by done.
  destruct (FireEvent_registry e (filled e n args w0)) as (_ & _ & _ & Ho).
  unfold after in Ho. rewrite Hfire in Ho. simpl in Ho.
  rewrite (Ho l Hne), list_lookup_insert_ne by done. done.
Qed.

(** X10. Once a name has left the catalog, by [DelEvent] or [ClearEvents],
    [Fire] on that name no longer dispatches the stored object: in a
    well-formed world it dispatches a scratch event, so the first listener
    called sees exactly the given name and payload and no abort, and the
    object that was stored is left as it is. *)
Theorem removed_event_is_not_fired nm n args pick w l ev_l :
  pool_ok w → goodName nm = Return n →
  events (mgr w) !! n = Some l → heap w !! l = Some ev_l →
  (∀ c cs,
     calls (after (Fire nm args pick) (after (DelEvent n) w))
     = calls w ++ c :: cs →
     call_seen c = mkEvent n args false)
  ∧ heap (after (Fire nm args pick) (after (DelEvent n) w)) !! l
    = Some ev_l
  ∧ (∀ c cs,
       calls (after (Fire nm args pick) (after ClearEvents w))
       = calls w ++ c :: cs →
       call_seen c = mkEvent n args false)
  ∧ heap (after (Fire nm args pick) (after ClearEvents w)) !! l = Some ev_l.
Proof.
  intros Hok Hn Hcat Hl.
  assert (Hgen : ∀ evs, evs ⊆ events (mgr w) → evs !! n = None →
    let w1 := set_mgr (set_events evs (mgr w)) w in
    (∀ c cs, calls (after (Fire nm args pick) w1) = calls w ++ c :: cs →
             call_seen c = mkEvent n args false)
    ∧ heap (after (Fire nm args pick) w1) !! l = Some ev_l).
  { intros evs Hsub Hnone w1.
    pose proof (pool_ok_fewer_events w evs Hok Hsub) as Hok1.
    split.
    - destruct (Fire_scratch nm n args pick w1 Hok1 Hn Hnone)
        as (e & w0 & w2 & cs & ev' & r & _ & _ & _ & HFire & Hcs & Hlink & _).
      unfold after. rewrite HFire. intros c cs' Hc.
      change (calls (released e w2) = calls w1 ++ c :: cs') in Hc.
      rewrite Hcs in Hc. apply app_inv_head in Hc. subst cs.
      by inversion Hlink.
    - rewrite (Fire_scratch_other nm n args pick w1 l Hok1 Hn Hnone);
        [done|simpl; by eapply lookup_lt_Some|].
      simpl. by apply (pool_apart w Hok n). }
  rewrite DelEvent_after.
  destruct (Hgen (delete n (events (mgr w))))
    as [H1 H2]; [apply delete_subseteq|apply lookup_delete_eq|].
  destruct (Hgen ∅) as [H3 H4]; [apply map_empty_subseteq|done|].
  done.
Qed.

Lemma removed_event_is_not_fired_witness :
  pool_ok w_catalog ∧ goodName "e1" = Return "e1"
  ∧ events (mgr w_catalog) !! "e1" = Some 0%nat
  ∧ heap w_catalog !! 0%nat = Some (mkEvent "e1" {[ "x" := VInt 7 ]} false)
  ∧ calls (after (Fire "e1" ∅ None) (after (DelEvent "e1") w_catalog))
    = calls w_catalog
      ++ call_of (mkItem 0 (L_set 1 "a" (VInt 1))) (mkEvent "e1" ∅ false)
         :: []
  ∧ heap (after (Fire "e1" ∅ None) (after (DelEvent "e1") w_catalog))
      !! 0%nat = Some (mkEvent "e1" {[ "x" := VInt 7 ]} false).
Proof.
  assert (Hok : pool_ok w_catalog).
  { split.
    - constructor.
    - intros l Hl. by apply elem_of_nil in Hl.
    - intros n l _ Hl. by apply elem_of_nil in Hl.
    - intros n l Hn.
      assert (Hevs : events (mgr w_catalog) = {[ "e1" := 0%nat ]})
        by reflexivity.
      rewrite Hevs in Hn. apply lookup_singleton_Some in Hn as [_ <-].
      by eexists. }
  destruct (removed_event_is_not_fired "e1" "e1" ∅ None w_catalog 0%nat
              (mkEvent "e1" {[ "x" := VInt 7 ]} false) Hok)
    as (_ & Hkept & _); [reflexivity..|].
  split; [exact Hok|]. do 3 (split; [reflexivity|]).
  split; [reflexivity|exact Hkept].
Defined.

(** X18. It is the stored event's own name, not the name fired, that
    selects the listeners: when the catalog holds under [n] a live event
    whose name has no queue, [Fire] on a name that resolves to [n] calls
    no one, returns nil and changes nothing, whatever is registered under
    [n] itself. *)
Theorem Fire_uses_the_events_own_name nm n args pick w e ev :
  goodName nm = Return n → events (mgr w) !! n = Some e →
  heap w !! e = Some ev → listeners (mgr w) !! e_name ev = None →
  Fire nm args pick w = (w, Return None).
Proof.
  intros Hn Hcat Hev Hq.
  rewrite (Fire_catalog nm n args pick w e Hn Hcat).
  by apply FireEvent_no_exact_queue with ev.
Qed.

Lemma Fire_uses_the_events_own_name_witness :
  goodName "e1" = Return "e1"
  ∧ events (mgr w_renamed) !! "e1" = Some 0%nat
  ∧ heap w_renamed !! 0%nat = Some (mkEvent "e9" ∅ false)
  ∧ listeners (mgr w_renamed) !! "e9" = None
  ∧ result (HasListeners "e1") w_renamed = Return true
  ∧ Fire "e1" ∅ None w_renamed = (w_renamed, Return None).
Proof.
  do 5 (split; [reflexivity|]).
  apply (Fire_uses_the_events_own_name "e1" "e1" ∅ None w_renamed 0%nat
           (mkEvent "e9" ∅ false)); reflexivity.
Defined.

(** *** Names *)

(** X13. A name [goodName] returns is the argument without the white space
    around it; it starts with a letter and holds only letters, digits,
    [_], [-], [.] and [*]; it is not the bare wildcard; and it is a fixed
    point: [goodName] returns it unchanged and trimming changes nothing. *)
Theorem goodName_fixed_point nm n :
  goodName nm = Return n →
  n = Str.TrimSpace nm
  ∧ goodName n = Return n
  ∧ Str.TrimSpace n = n
  ∧ (∃ c r, n = String c r ∧ Str.is_letter c = true
            ∧ Str.all_in_class r = true)
  ∧ n ≠ Wildcard.
Proof.
  intros Hn. pose proof (goodName_idem nm n Hn) as Hidem.
  apply goodName_Return in Hn as (Htrim & Hne & Hm).
  split; [exact Htrim|]. split; [exact Hidem|].
  split; [by apply TrimSpace_class, MatchString_class|].
  split.
  - destruct n as [|c r]; [done|]. simpl in Hm.
    apply andb_true_iff in Hm as [Hc Hr]. by exists c, r.
  - intros ->. discriminate Hm.
Qed.

Lemma goodName_fixed_point_witness :
  goodName "  app.user-1.* " = Return "app.user-1.*"
  ∧ goodName "app.user-1.*" = Return "app.user-1.*"
  ∧ Str.TrimSpace "app.user-1.*" = "app.user-1.*".
Proof.
  destruct (goodName_fixed_point "  app.user-1.* " "app.user-1.*" eq_refl)
    as (_ & Hidem & Htrim & _).
  split; [reflexivity|]. split; [exact Hidem|exact Htrim].
Defined.

(** X6. When [goodName] accepts a name, the methods that take a name do
    the same with the name as given and with the name it returns: [On],
    [Fire] and [MustFire] do not tell [" app "] from ["app"]. *)
Theorem methods_trim_their_name nm n l p args pick w :
  goodName nm = Return n →
  On nm l p w = On n l p w
  ∧ Fire nm args pick w = Fire n args pick w
  ∧ MustFire nm args pick w = MustFire n args pick w.
Proof.
  intros Hn. pose proof (goodName_idem nm n Hn) as Hidem.
  assert (HF : Fire nm args pick w = Fire n args pick w).
  { unfold Fire.
    rewrite (bind_Return (lift (goodName nm)) _ w w n)
      by (unfold lift; by rewrite Hn).
    rewrite (bind_Return (lift (goodName n)) _ w w n)
      by (unfold lift; by rewrite Hidem).
    done. }
  split; [|split; [exact HF|]].
  - unfold On.
    rewrite (bind_Return (lift (goodName nm)) _ w w n)
      by (unfold lift; by rewrite Hn).
    rewrite (bind_Return (lift (goodName n)) _ w w n)
      by (unfold lift; by rewrite Hidem).
    done.
  - unfold MustFire, mbind, Go_bind. by rewrite HF.
Qed.

Lemma methods_trim_their_name_witness :
  goodName " app.run " = Return "app.run"
  ∧ On " app.run " (Some (L_ok 7)) 3 w_fail
    = On "app.run" (Some (L_ok 7)) 3 w_fail
  ∧ Fire " app.run " ∅ None w_fail = Fire "app.run" ∅ None w_fail.
Proof.
  destruct (methods_trim_their_name " app.run " "app.run" (Some (L_ok 7)) 3
              ∅ None w_fail eq_refl) as (HOn & HFire & _).
  split; [reflexivity|]. split; [exact HOn|exact HFire].
Defined.



(** X17. After [On] has registered a listener under the name [n] that
    [goodName] returned, [HasListeners n] is true and the answer for every
    other name is as before. [HasListeners] itself does not trim: for the
    name as given, when it differs from [n] and has no count of its own,
    the answer is still false. *)
Theorem On_then_HasListeners nm n l p k w :
  goodName nm = Return n →
  HasListeners n (after (On nm (Some l) p) w)
  = (after (On nm (Some l) p) w, Return true)
  ∧ (k ≠ n →
     result (HasListeners k) (after (On nm (Some l) p) w)
     = result (HasListeners k) w)
  ∧ (nm ≠ n → listenedNames (mgr w) !! nm = None →
     result (HasListeners nm) (after (On nm (Some l) p) w) = Return false).
Proof.
  intros Hn.
  assert (Hafter : after (On nm (Some l) p) w
    = set_mgr (registered n l p (mgr w)) w)
    by (unfold after; by rewrite (On_run nm n l p w Hn)).
  rewrite Hafter. unfold result, HasListeners.
  rewrite !(bind_Return get_mgr _ _ _ _ eq_refl). simpl.
  split; [by rewrite lookup_insert_eq|]. split.
  - intros Hk. by rewrite lookup_insert_ne.
  - intros Hne Hnone. rewrite lookup_insert_ne by done. by rewrite Hnone.
Qed.

Lemma On_then_HasListeners_witness :
  goodName " app " = Return "app"
  ∧ " app " ≠ "app"
  ∧ listenedNames (mgr w_fail) !! " app " = None
  ∧ HasListeners "app" (after (On " app " (Some (L_ok 9)) 0) w_fail)
    = (after (On " app " (Some (L_ok 9)) 0) w_fail, Return true)
  ∧ result (HasListeners " app ")
      (after (On " app " (Some (L_ok 9)) 0) w_fail) = Return false.
Proof.
  destruct (On_then_HasListeners " app " "app" (L_ok 9) 0 "x" w_fail eq_refl)
    as (Hhas & _ & Hraw).
  split; [reflexivity|]. split; [discriminate|]. split; [reflexivity|].
  split; [exact Hhas|]. apply Hraw; [discriminate|reflexivity].
Defined.

(** *** Registering, then firing *)

Lemma Sort_singleton li : ListenerQueue.Sort [li] = [li].
Proof. reflexivity. Qed.

(** X11. A listener registered with [On] under a name that had neither a
    queue nor a catalog event is the first one called when that name is
    fired: it sees an event with the validated name and exactly the
    payload given to [Fire]; and if its call is not clean, it is the only
    call and [Fire] returns its error. *)
Theorem On_then_Fire nm n l p args pick w :
  pool_ok w → goodName nm = Return n →
  listeners (mgr w) !! n = None → events (mgr w) !! n = None →
  ∃ cs r w',
    Fire nm args pick (after (On nm (Some l) p) w) = (w', Return r)
    ∧ calls w'
      = calls w ++ call_of (mkItem p l) (mkEvent n args false) :: cs
    ∧ (¬ clean (call_of (mkItem p l) (mkEvent n args false)) →
       cs = [] ∧ r = call_err (call_of (mkItem p l) (mkEvent n args false))).
Proof.
  intros Hok Hn Hq Hcat.
  assert (Hafter : after (On nm (Some l) p) w
    = set_mgr (registered n l p (mgr w)) w)
    by (unfold after; by rewrite (On_run nm n l p w Hn)).
  pose proof (On_pool_ok nm (Some l) p w Hok) as Hok1.
  rewrite Hafter in *.
  set (w1 := set_mgr (registered n l p (mgr w)) w) in *.
  destruct (Fire_scratch_facts nm n args pick w1 Hok1 Hn Hcat)
    as (e & w0 & w2 & r & _ & _ & Hls & Hcs & Hev & Hfire & HFire).
  assert (Hlq : listeners (mgr (filled e n args w0)) !! n
                = Some [mkItem p l]).
  { simpl. rewrite Hls. simpl. rewrite Hq. simpl.
    by rewrite lookup_insert_eq. }
  destruct (FireEvent_chain e (filled e n args w0) _ [mkItem p l] Hev Hlq)
    as (tail & cs & ev' & x & w2' & Hfire' & Hch & _ & Hc & _).
  rewrite Hfire in Hfire'. injection Hfire' as <- ->.
  rewrite Sort_singleton in Hch. simpl in Hch.
  destruct (chain_first _ _ _ _ _ _ Hch) as (cs' & -> & Hstop).
  exists cs', (exit_err x), (released e w2). split; [exact HFire|].
  split; [simpl; rewrite Hc; simpl; by rewrite Hcs|].
  intros Hnc. destruct (Hstop Hnc) as [-> ->]. done.
Qed.

Lemma On_then_Fire_witness :
  pool_ok w_used ∧ goodName "e3" = Return "e3"
  ∧ listeners (mgr w_used) !! "e3" = None
  ∧ events (mgr w_used) !! "e3" = None
  ∧ ∃ cs r w',
      Fire "e3" {[ "k" := VInt 1 ]} (Some 0%nat)
        (after (On "e3" (Some (L_fail 8 "no")) 0) w_used) = (w', Return r)
      ∧ calls w'
        = calls w_used
          ++ call_of (mkItem 0 (L_fail 8 "no"))
                     (mkEvent "e3" {[ "k" := VInt 1 ]} false) :: cs
      ∧ cs = [] ∧ r = Some "no".
Proof.
  assert (Hok : pool_ok w_used).
  { apply pool_ok_no_catalog.
    - reflexivity.
    - vm_compute. apply NoDup_singleton.
    - vm_compute. repeat constructor. }
  split; [exact Hok|]. do 3 (split; [reflexivity|]).
  destruct (On_then_Fire "e3" "e3" (L_fail 8 "no") 0 {[ "k" := VInt 1 ]}
              (Some 0%nat) w_used Hok)
    as (cs & r & w' & HFire & Hc & Hstop); [reflexivity..|].
  exists cs, r, w'. split; [exact HFire|]. split; [exact Hc|].
  apply Hstop. intros [Hc' _]. discriminate Hc'.
Defined.



(** *** [callListeners] and a new manager *)

Lemma callListeners_chain e ls : ∀ w ev,
  heap w !! e = Some ev →
  ∃ cs ev' x,
    callListeners e ls w
    = (mkWorld (<[e := ev']> (heap w)) (mgr w) (calls w ++ cs),
       Return (exit_err x))
    ∧ chain (mkItem 0 <$> ls) ev cs ev' x.
Proof.
  induction ls as [|l rest IH]; intros w ev Hev.
  - exists [], ev, Fallthrough. split; [|constructor].
    rewrite (list_insert_id _ _ _ Hev), (right_id_L [] (++)).
    by destruct w.
  - simpl.
    rewrite (bind_Return _ _ _ _ _ (Handle_run (mkItem 0 l) e w ev Hev)).
    set (c := call_of (mkItem 0 l) ev).
    set (w1 := mkWorld (<[e := call_left c]> (heap w)) (mgr w)
                       (calls w ++ [c])).
    assert (Hev1 : heap w1 !! e = Some (call_left c)).
    { simpl. apply list_lookup_insert_eq. by eapply lookup_lt_Some. }
    destruct (call_err c) as [err|] eqn:Herr.
    + exists [c], (call_left c), (Returned (call_err c)). split.
      * by rewrite Herr.
      * apply chain_stop. intros [Hn _]. fold c in Hn. congruence.
    + rewrite (bind_Return _ _ _ _ _ (Aborted_run e w1 _ Hev1)).
      destruct (e_aborted (call_left c)) eqn:Hab.
      * exists [c], (call_left c), (Returned (call_err c)). split.
        -- by rewrite Herr.
        -- apply chain_stop. intros [_ Hn]. fold c in Hn. congruence.
      * destruct (IH w1 (call_left c) Hev1) as (cs & ev' & x & Hrun & Hch).
        exists (c :: cs), ev', x. split.
        -- rewrite Hrun. unfold w1. simpl.
           rewrite list_insert_insert_eq, <- (assoc_L (++)). done.
        -- by apply chain_go.
Qed.

(** X12. [callListeners] on a live event calls the listeners in the order
    of the slice and stops at the first call that is not clean, whose
    error it returns; when every call is clean all have been called and it
    returns nil. It changes nothing but the event and never touches the
    manager. On an empty slice it returns nil at once, whatever the
    event. *)
Theorem callListeners_in_slice_order e ls w ev :
  heap w !! e = Some ev →
  callListeners e [] w = (w, Return None)
  ∧ ∃ cs ev' r w',
      callListeners e ls w = (w', Return r)
      ∧ calls w' = calls w ++ cs
      ∧ mgr w' = mgr w
      ∧ heap w' = <[e := ev']> (heap w)
      ∧ linked ev cs ev'
      ∧ lids cs `prefix_of` lid <$> ls
      ∧ stop_shape cs r
      ∧ (Forall clean cs → r = None ∧ lids cs = lid <$> ls).
Proof.
  intros Hev. split; [done|].
  destruct (callListeners_chain e ls w ev Hev) as (cs & ev' & x & Hrun & Hch).
  assert (Hids : (λ li, lid (listener li)) <$> (mkItem 0 <$> ls) = lid <$> ls)
    by (rewrite <- list_fmap_compose; done).
  eexists cs, ev', (exit_err x), _. split; [exact Hrun|].
  do 3 (split; [done|]). split; [by eapply chain_linked|].
  split; [rewrite <- Hids; by eapply chain_prefix|].
  split.
  - destruct x as [|err]; simpl.
    + left. split; [by eapply chain_Fallthrough|done].
    + right. by eapply chain_Returned.
  - intros Hcl. destruct (chain_clean _ _ _ _ _ Hch Hcl) as [-> Hall].
    by rewrite <- Hids.
Qed.

Lemma callListeners_in_slice_order_witness :
  heap w_group !! 0%nat = Some (mkEvent "app.run" ∅ false)
  ∧ result (callListeners 0%nat [L_ok 5; L_fail 6 "stop"; L_ok 7]) w_group
    = Return (Some "stop")
  ∧ ∃ cs ev' r w',
      callListeners 0%nat [L_ok 5; L_fail 6 "stop"; L_ok 7] w_group
      = (w', Return r)
      ∧ calls w' = calls w_group ++ cs
      ∧ mgr w' = mgr w_group
      ∧ heap w' = <[0%nat := ev']> (heap w_group)
      ∧ linked (mkEvent "app.run" ∅ false) cs ev'
      ∧ lids cs `prefix_of` [5; 6; 7]%nat
      ∧ stop_shape cs r
      ∧ (Forall clean cs → r = None ∧ lids cs = [5; 6; 7]%nat).
Proof.
  split; [reflexivity|]. split; [reflexivity|].
  apply (callListeners_in_slice_order 0%nat [L_ok 5; L_fail 6 "stop"; L_ok 7]
           w_group (mkEvent "app.run" ∅ false)).
  reflexivity.
Defined.

(** X19. On a new manager, whatever its name, [Fire] on any valid name
    returns nil without a call; it allocates the first scratch object,
    which is left in the pool, and registers nothing. *)
Theorem Fire_on_new_manager mname nm n args pick :
  goodName nm = Return n →
  ∃ w',
    Fire nm args pick (new_world mname) = (w', Return None)
    ∧ calls w' = []
    ∧ mgr w' = set_pool [0%nat] (NewManager mname)
    ∧ length (heap w') = 1%nat.
Proof.
  intros Hn.
  assert (Hget : pool_Get pick (new_world mname)
    = (set_heap [zero_event] (new_world mname), Return 0%nat)).
  { unfold pool_Get. by destruct pick as [[|i]|]. }
  eexists. split.
  { unfold Fire.
    rewrite (bind_Return (lift (goodName nm)) _ _ _ n)
      by (unfold lift; by rewrite Hn).
    rewrite (bind_Return get_mgr _ _ _ _ eq_refl). simpl.
    rewrite lookup_empty.
    rewrite (bind_Return _ _ _ _ _ Hget).
    rewrite (bind_Return _ _ _ _ _
               (SetName_run 0%nat n (set_heap [zero_event] (new_world mname))
                  zero_event (goodName_idem _ _ Hn) eq_refl)).
    erewrite (bind_Return (Event.Fill 0%nat args)); [|by apply Fill_run].
    erewrite (bind_Return (FireEvent 0%nat)); last first.
    { apply FireEvent_no_exact_queue with (mkEvent n args false); [done|].
      simpl. apply lookup_empty. }
    erewrite (bind_Return (Event.reset 0%nat)); [|by eapply reset_run].
    reflexivity. }
  done.
Qed.

Lemma Fire_on_new_manager_witness :
  goodName " boot " = Return "boot"
  ∧ ∃ w',
      Fire " boot " {[ "k" := VNil ]} (Some 3%nat) (new_world "m")
      = (w', Return None)
      ∧ calls w' = []
      ∧ mgr w' = set_pool [0%nat] (NewManager "m")
      ∧ length (heap w') = 1%nat.
Proof.
  split; [reflexivity|].
  by apply (Fire_on_new_manager "m" " boot " "boot").
Defined.
